(** * EVBatteryValueFed: the battery value federate of the BLOSEM tutorial

    A shallow embedding of [python/BLOSEM_tutorial/EVBatteryValueFed.py]
    and the properties of its SOC-update engine.

    Numbers.  Python floats are idealised as exact rationals ([Q]): every
    operation is the exact one, and the IEEE values inf and NaN, which have
    no rational counterpart, end a computation with the outcome
    [NonFinite].

    Libraries.  numpy ([np.interp], broadcasting arithmetic, the global
    random generator) and HELICS (inputs, publications, time requests) are
    not part of the repository; they are modelled by what their
    documentation and sources say, as far as the federate uses them. *)

From Stdlib Require Import ZArith QArith Lia Lqa List Bool.
From stdpp Require Import base option list gmap.

Open Scope Q_scope.

(** ** Python exceptions *)

Inductive exn : Set :=
| ValueError
| KeyError
| NameError
| ZeroDivisionError.

(** [ArithmeticError] is the base class of [ZeroDivisionError] (and of
    [OverflowError] and [FloatingPointError], which nothing here raises). *)
Definition is_ArithmeticError (e : exn) : bool :=
  match e with
  | ZeroDivisionError => true
  | _ => false
  end.

(** ** numpy *)

Module np.

(** What the federate hands to numpy: a scalar (a Python or numpy float,
    zero-dimensional) or a one-dimensional [ndarray] of floats. *)
Inductive value : Type :=
| Num (q : Q)
| Arr (a : list Q).

(** [PyArray_ContiguousFromAny(o, NPY_DOUBLE, 1, 1)]: the argument must be
    exactly one-dimensional; a scalar is refused with
    "ValueError: object of too small depth for desired array". *)
Definition as_1d (v : value) : exn + list Q :=
  match v with
  | Num _ => inl ValueError
  | Arr a => inr a
  end.

(** The interpolation of one query [x], once the node [(x0, y0)] is known
    to satisfy [x0 <= x].  [nodes] are the nodes to the right of it.  The
    scan stops at the first node strictly to the right of [x]: for an
    increasing [xp], which [np.interp] requires without checking, this is
    the interval that numpy's bisection finds.  At the last node, and to
    the right of it, the result is the last value ([right] is [None]). *)
Fixpoint locate (x x0 y0 : Q) (nodes : list (Q * Q)) : Q :=
  match nodes with
  | [] => y0
  | (x1, y1) :: rest =>
      if Qle_bool x1 x then locate x x1 y1 rest
      else if Qeq_bool x0 x then y0
      else (y1 - y0) / (x1 - x0) * (x - x0) + y0
  end.

(** One query against the nodes [xp], [fp] (same length, not empty).  To
    the left of the first node the result is the first value ([left] is
    [None]). *)
Definition interp_at (xp fp : list Q) (x : Q) : Q :=
  match combine xp fp with
  | [] => 0
  | (x0, y0) :: rest => if Qle_bool x0 x then locate x x0 y0 rest else y0
  end.

(** [np.interp(x, xp, fp)].  [fp] and [xp] are converted first, then the
    lengths are checked ("array of sample points is empty", "fp and xp are
    not of the same length"); [x] may have any shape and gives the result
    its shape. *)
Definition interp (x xp fp : value) : exn + value :=
  match as_1d fp with
  | inl e => inl e
  | inr dy =>
      match as_1d xp with
      | inl e => inl e
      | inr dx =>
          if Nat.eqb (length dx) 0 then inl ValueError
          else if negb (Nat.eqb (length dy) (length dx)) then inl ValueError
          else inr (match x with
                    | Num q => Num (interp_at dx dy q)
                    | Arr qs => Arr (map (interp_at dx dy) qs)
                    end)
      end
  end.

(** Element-wise arithmetic with broadcasting of scalars; two arrays of
    different lengths do not broadcast ([ValueError]). *)
Definition broadcast (f : Q -> Q -> Q) (a b : value) : exn + value :=
  match a, b with
  | Num x, Num y => inr (Num (f x y))
  | Num x, Arr ys => inr (Arr (map (f x) ys))
  | Arr xs, Num y => inr (Arr (map (fun x => f x y) xs))
  | Arr xs, Arr ys =>
      if Nat.eqb (length xs) (length ys)
      then inr (Arr (map (fun p => f (fst p) (snd p)) (combine xs ys)))
      else inl ValueError
  end.

Definition add := broadcast Qplus.
Definition mul := broadcast Qmult.

(** Does a divisor hold a zero?  numpy then stores inf or NaN in the
    result and goes on with a [RuntimeWarning]; it does not raise. *)
Definition has_zero (v : value) : bool :=
  match v with
  | Num y => Qeq_bool y 0
  | Arr ys => existsb (fun y => Qeq_bool y 0) ys
  end.

(** True division; [None] stands for a result that holds inf or NaN. *)
Definition divide (a b : value) : option (exn + value) :=
  if has_zero b then None else Some (broadcast Qdiv a b).

End np.

(** numpy's process-wide generator, as far as the federate uses it:
    [np.random.seed(n)] installs a state that depends on [n] alone, and
    [np.random.randint(low, high)] returns an integer of [low, high) and
    advances the state.  The Mersenne Twister itself is not modelled. *)
Class RandomState : Type := {
  rng_state : Type;
  rng_seed : Z -> rng_state;
  rng_randint : Z -> Z -> rng_state -> Z * rng_state;
  rng_randint_range :
    forall low high g,
      (low < high)%Z ->
      (low <= fst (rng_randint low high g) < high)%Z
}.

(** ** The battery physics (lines 32-37) *)

Definition socs : list Q :=
  [0; 0.0667; 0.1333; 0.2; 0.2667; 0.3333; 0.4; 0.4667; 0.5333;
   0.6; 0.6667; 0.7333; 0.8; 0.8667; 0.9333; 1].

Definition effective_R : list Q :=
  [2; 2.2222; 2.4444; 2.6667; 2.6815; 2.6963; 2.7111;
   2.7259; 2.7407; 2.7556; 2.7704; 2.7852; 2.8; 3.8182;
   6; 21].

(** The call of line 139, [np.interp(socs, effective_R, current_soc[j])]:
    the SOC grid is the query, the resistances are the sample points and
    the unit's SOC stands where the sample values belong. *)
Definition interp_call (socs effective_R soc : np.value) : exn + np.value :=
  np.interp socs effective_R soc.

(** The interpolation that section 4.1 of the specification describes,
    [interpolate(soc_query)] over the nodes [(soc_grid, resistance_grid)]:
    in numpy's argument order, [np.interp(soc, socs, effective_R)]. *)
Definition spec_interp_call (socs effective_R soc : np.value) : exn + np.value :=
  np.interp soc socs effective_R.

Definition interpolate (soc_query : Q) : exn + np.value :=
  spec_interp_call (np.Arr socs) (np.Arr effective_R) (np.Num soc_query).

(** ** The federate's settings and its collaborators *)

(** The constants of lines 95-102 that the loop uses. *)
Record settings : Set := {
  total_interval : Z;
  update_interval : Z;
  batt_cell_series : Z
}.

(** [hours = 24*7], [total_interval = int(60 * 60 * hours)],
    [update_interval = 60], [batt_cell_series = 96]. *)
Definition tutorial : settings := {|
  total_interval := 60 * 60 * (24 * 7);
  update_interval := 60;
  batt_cell_series := 96
|}.

(** What HELICS answers during one run.  [helicsInputGetDouble k j] is the
    voltage read from input [j] after the [k]-th time grant (counted from
    0), [helicsFederateRequestTime k t] the time granted to the [k]-th
    request, which asked for [t]. *)
Record federation : Type := {
  sub_count : nat;
  pub_count : nat;
  helicsInputGetDouble : nat -> nat -> Q;
  helicsFederateRequestTime : nat -> Q -> Q
}.

(** ** Outcomes *)

Inductive result (A : Type) : Type :=
| Ok (a : A)
| Raise (e : exn)
| NonFinite
| OutOfFuel.

Arguments Ok {A} a.
Arguments Raise {A} e.
Arguments NonFinite {A}.
Arguments OutOfFuel {A}.

Section Federate.

Context {RS : RandomState}.

(** The module's global variables, numpy's generator and the trace of the
    HELICS calls.  [charging_current] is [None] until line 142 binds the
    name; the traces have the newest entry first. *)
Record world : Type := World {
  random : rng_state;
  g_socs : np.value;
  g_effective_R : np.value;
  current_soc : gmap nat np.value;
  charging_current : option np.value;
  time_sim : list Q;
  current : list np.value;
  grants : nat;
  requested : list Q;
  published : list (nat * np.value);
  finalized : bool
}.

(** A Python exception leaves every assignment made before it in place:
    the world is threaded through failures too. *)
Definition M (A : Type) : Type := world -> result A * world.

Definition ret {A} (a : A) : M A := fun w => (Ok a, w).

Definition bind {A B} (c : M A) (k : A -> M B) : M B :=
  fun w =>
    match c w with
    | (Ok a, w') => k a w'
    | (Raise e, w') => (Raise e, w')
    | (NonFinite, w') => (NonFinite, w')
    | (OutOfFuel, w') => (OutOfFuel, w')
    end.

Definition raise {A} (e : exn) : M A := fun w => (Raise e, w).

Definition gets {A} (f : world -> A) : M A := fun w => (Ok (f w), w).

Definition modify (f : world -> world) : M unit := fun w => (Ok tt, f w).

Definition lift {A} (r : exn + A) : M A :=
  match r with
  | inl e => raise e
  | inr a => ret a
  end.

Definition lift_finite {A} (r : option (exn + A)) : M A :=
  match r with
  | None => fun w => (NonFinite, w)
  | Some r' => lift r'
  end.

Notation "'let*' x ':=' c 'in' k" := (bind c (fun x => k))
  (at level 10, x name, c at level 100, k at level 200).
Notation "'run' c 'in' k" := (bind c (fun _ => k))
  (at level 10, c at level 100, k at level 200).

(** *** Assignments *)

Definition set_random (g : rng_state) (w : world) : world :=
  World g (g_socs w) (g_effective_R w) (current_soc w) (charging_current w)
    (time_sim w) (current w) (grants w) (requested w) (published w)
    (finalized w).

Definition set_current_soc (m : gmap nat np.value) (w : world) : world :=
  World (random w) (g_socs w) (g_effective_R w) m (charging_current w)
    (time_sim w) (current w) (grants w) (requested w) (published w)
    (finalized w).

Definition set_charging_current (i : np.value) (w : world) : world :=
  World (random w) (g_socs w) (g_effective_R w) (current_soc w) (Some i)
    (time_sim w) (current w) (grants w) (requested w) (published w)
    (finalized w).

Definition collect_time (t : Q) (w : world) : world :=
  World (random w) (g_socs w) (g_effective_R w) (current_soc w)
    (charging_current w) (t :: time_sim w) (current w) (grants w)
    (requested w) (published w) (finalized w).

Definition collect_current (i : np.value) (w : world) : world :=
  World (random w) (g_socs w) (g_effective_R w) (current_soc w)
    (charging_current w) (time_sim w) (i :: current w) (grants w)
    (requested w) (published w) (finalized w).

Definition granted (t : Q) (w : world) : world :=
  World (random w) (g_socs w) (g_effective_R w) (current_soc w)
    (charging_current w) (time_sim w) (current w) (S (grants w))
    (t :: requested w) (published w) (finalized w).

Definition publish (j : nat) (i : np.value) (w : world) : world :=
  World (random w) (g_socs w) (g_effective_R w) (current_soc w)
    (charging_current w) (time_sim w) (current w) (grants w)
    (requested w) ((j, i) :: published w) (finalized w).

Definition finalize (w : world) : world :=
  World (random w) (g_socs w) (g_effective_R w) (current_soc w)
    (charging_current w) (time_sim w) (current w) (grants w)
    (requested w) (published w) true.

(** [np.random.seed(n)] and [np.random.randint(low, high)]. *)
Definition np_random_seed (n : Z) : M unit := modify (set_random (rng_seed n)).

Definition np_random_randint (low high : Z) : M Z :=
  fun w =>
    let (r, g) := rng_randint low high (random w) in
    (Ok r, set_random g w).

(** [current_soc[j]] read ([KeyError] on a missing key) and written (a
    missing key is created). *)
Definition get_soc (j : nat) : M np.value :=
  fun w =>
    match current_soc w !! j with
    | Some v => (Ok v, w)
    | None => (Raise KeyError, w)
    end.

Definition put_soc (j : nat) (v : np.value) : M unit :=
  modify (fun w => set_current_soc (<[j := v]> (current_soc w)) w).

(** [(np.random.randint(0,80))/100], lines 106 and 136. *)
Definition draw_soc : M np.value :=
  let* r := np_random_randint 0 80 in
  ret (np.Num (inject_Z r / 100)).

(** *** The update of one unit (lines 134-147) *)

(** Lines 134-136: "EV is fully charged and a new EV is moving in". *)
Definition reconnect (j : nat) (charging_voltage : Q) : M unit :=
  if Qeq_bool charging_voltage 0
  then (let* soc0 := draw_soc in put_soc j soc0)
  else ret tt.

(** Lines 138-147: "Calculate charging current and update SOC".
    [lookup] is the interpolation call; the result is
    [charging_current]. *)
Definition charge
    (lookup : np.value -> np.value -> np.value -> exn + np.value)
    (cfg : settings) (j : nat) (charging_voltage : Q) : M np.value :=
  let* xs := gets g_socs in
  let* ys := gets g_effective_R in
  let* soc := get_soc j in
  let* y := lift (lookup xs ys soc) in
  let* R := lift (np.mul (np.Num (inject_Z (batt_cell_series cfg))) y) in
  let* i := lift_finite (np.divide (np.Num charging_voltage) R) in
  run modify (set_charging_current i) in
  let* e1 := lift (np.mul i (np.Num charging_voltage)) in
  let* e2 := lift (np.mul e1 (np.Num (inject_Z (update_interval cfg)))) in
  let* added_energy := lift_finite (np.divide e2 (np.Num 3600)) in
  let* soc' := get_soc j in
  let* soc'' := lift (np.add soc' added_energy) in
  run put_soc j soc'' in
  ret i.

(** What the loop body does to battery [j] between reading its voltage
    and publishing its current: the [step] of the specification. *)
Definition step_with
    (lookup : np.value -> np.value -> np.value -> exn + np.value)
    (cfg : settings) (j : nat) (charging_voltage : Q) : M np.value :=
  run reconnect j charging_voltage in
  charge lookup cfg j charging_voltage.

(** *** The main program (lines 59-162) *)

Fixpoint for_each (js : list nat) (body : nat -> M unit) : M unit :=
  match js with
  | [] => ret tt
  | j :: js' => run body j in for_each js' body
  end.

(** [for j in range(0, n)]. *)
Definition for_range (n : nat) (body : nat -> M unit) : M unit :=
  for_each (seq 0 n) body.

(** Lines 104-106. *)
Definition initialize (fed : federation) : M unit :=
  run modify (set_current_soc ∅) in
  for_range (pub_count fed) (fun i => let* soc0 := draw_soc in put_soc i soc0).

(** The body of the loop over the batteries, lines 128-153, after the
    [k]-th grant: read the voltage, update, publish.  [pubid] has the keys
    below [pub_count]. *)
Definition battery
    (lookup : np.value -> np.value -> np.value -> exn + np.value)
    (cfg : settings) (fed : federation) (k j : nat) : M unit :=
  let charging_voltage := helicsInputGetDouble fed k j in
  let* i := step_with lookup cfg j charging_voltage in
  if Nat.ltb j (pub_count fed) then modify (publish j i) else raise KeyError.

(** One turn of the [while] loop, lines 119-157, entered at time [t]; the
    result is the new [t]. *)
Definition tick
    (lookup : np.value -> np.value -> np.value -> exn + np.value)
    (cfg : settings) (fed : federation) (t : Q) : M Q :=
  let requested_time := t + inject_Z (update_interval cfg) in
  let* k := gets grants in
  let grantedtime := helicsFederateRequestTime fed k requested_time in
  run modify (granted requested_time) in
  let t := grantedtime in
  run for_range (sub_count fed) (battery lookup cfg fed k) in
  run modify (collect_time t) in
  let* i := gets charging_current in
  match i with
  | None => raise NameError
  | Some i' => run modify (collect_current i') in ret t
  end.

(** [while t < total_interval], at most [fuel] turns. *)
Fixpoint loop
    (lookup : np.value -> np.value -> np.value -> exn + np.value)
    (cfg : settings) (fed : federation) (fuel : nat) (t : Q) : M unit :=
  if Qle_bool (inject_Z (total_interval cfg)) t then ret tt
  else
    match fuel with
    | O => fun w => (OutOfFuel, w)
    | S fuel' =>
        let* t' := tick lookup cfg fed t in
        loop lookup cfg fed fuel' t'
    end.

(** Lines 40-55: [helicsFederateFinalize], [helicsFederateFree],
    [helicsCloseLibrary]. *)
Definition destroy_federate : M unit := modify finalize.

Definition main_with
    (lookup : np.value -> np.value -> np.value -> exn + np.value)
    (cfg : settings) (fed : federation) (fuel : nat) : M unit :=
  run np_random_seed 1 in
  run initialize fed in
  run loop lookup cfg fed fuel 0 in
  destroy_federate.

(** The world when [__main__] starts: the imports and lines 29-37 have
    run, numpy's generator is in whatever state [g] it was left in. *)
Definition startup (g : rng_state) : world :=
  World g (np.Arr socs) (np.Arr effective_R) ∅ None [] [] 0 [] [] false.

(** The world after the reset of lines 135-136. *)
Definition reset (j : nat) (w : world) : world :=
  let (r, g) := rng_randint 0 80 (random w) in
  set_current_soc (<[j := np.Num (inject_Z r / 100)]> (current_soc w))
    (set_random g w).

(** The federate as written, and as section 4 of the specification
    describes it. *)
Definition step : settings -> nat -> Q -> M np.value :=
  step_with interp_call.

Definition main : settings -> federation -> nat -> M unit :=
  main_with interp_call.

Definition spec_step : settings -> nat -> Q -> M np.value :=
  step_with spec_interp_call.

Definition spec_main : settings -> federation -> nat -> M unit :=
  main_with spec_interp_call.

End Federate.

(** ** Vocabulary of the properties *)

(** The settings of the specification's horizon example: one hour in steps
    of a minute. *)
Definition one_hour : settings := {|
  total_interval := 3600;
  update_interval := 60;
  batt_cell_series := 96
|}.

(** A value that lines 106 and 136 can store: [k/100] for an integer [k] of
    [0, 80). *)
Definition on_grid (v : np.value) : Prop :=
  exists k : Z, (0 <= k < 80)%Z /\ v = np.Num (inject_Z k / 100).

(** Every stored SOC is a scalar. *)
Definition scalar_store (m : gmap nat np.value) : Prop :=
  forall j v, m !! j = Some v -> exists q, v = np.Num q.

(** Every stored SOC is on the grid of the draws. *)
Definition grid_store (m : gmap nat np.value) : Prop :=
  forall j v, m !! j = Some v -> on_grid v.

Section Relations.

Context {RS : RandomState}.

(** [c] takes every world to one that is [P]-related to it, whatever the
    outcome. *)
Definition keeps {A} (P : world -> world -> Prop) (c : M A) : Prop :=
  forall w, P w (snd (c w)).

(** Nothing but battery [j]'s SOC moved in the store, and the tables are
    the same objects. *)
Definition frame (j : nat) (w w' : world) : Prop :=
  (forall k, k <> j -> current_soc w' !! k = current_soc w !! k)
  /\ g_socs w' = g_socs w
  /\ g_effective_R w' = g_effective_R w.

(** Only the generator and the SOC store moved. *)
Definition quiet (w w' : world) : Prop :=
  g_socs w' = g_socs w
  /\ g_effective_R w' = g_effective_R w
  /\ charging_current w' = charging_current w
  /\ time_sim w' = time_sim w
  /\ current w' = current w
  /\ grants w' = grants w
  /\ requested w' = requested w
  /\ published w' = published w
  /\ finalized w' = finalized w.

(** What moves only when time is granted or the run ends. *)
Definition between_grants (w w' : world) : Prop :=
  time_sim w' = time_sim w
  /\ current w' = current w
  /\ grants w' = grants w
  /\ requested w' = requested w
  /\ finalized w' = finalized w.

(** No key leaves the SOC store. *)
Definition grows (w w' : world) : Prop :=
  forall j, is_Some (current_soc w !! j) -> is_Some (current_soc w' !! j).

(** The exceptions of [c] are among [ok]. *)
Definition throws {A} (ok : exn -> Prop) (c : M A) : Prop :=
  forall w e, fst (c w) = Raise e -> ok e.

(** The tables are those of lines 33-37 and the batteries below [n] hold
    scalar SOCs. *)
Definition ready (n : nat) (w : world) : Prop :=
  g_socs w = np.Arr socs
  /\ g_effective_R w = np.Arr effective_R
  /\ forall j, (j < n)%nat -> exists q, current_soc w !! j = Some (np.Num q).

(** The world after lines 142-147 took battery [j] from the SOC [q] with
    the current [i] under the voltage [v]. *)
Definition charged (cfg : settings) (j : nat) (v q i : Q) (w : world) : world :=
  set_current_soc
    (<[j := np.Num (q + i * v * inject_Z (update_interval cfg) / 3600)]>
       (current_soc w))
    (set_charging_current (np.Num i) w).

End Relations.

(** The scheduler grants every request as asked. *)
Definition granted_as_asked (fed : federation) : Prop :=
  forall k t, helicsFederateRequestTime fed k t = t.

(** Two runs get the same answers from HELICS: as many inputs and
    publications, the same voltage at every input after every grant, the
    same grant for every request. *)
Definition same_answers (fed1 fed2 : federation) : Prop :=
  sub_count fed1 = sub_count fed2
  /\ pub_count fed1 = pub_count fed2
  /\ (forall k j, helicsInputGetDouble fed1 k j = helicsInputGetDouble fed2 k j)
  /\ (forall k t,
        helicsFederateRequestTime fed1 k t = helicsFederateRequestTime fed2 k t).

(** ** Vocabulary of the runs *)

Section Runs.

Context {RS : RandomState}.

(** The generator after [n] calls of [np.random.randint(0,80)]. *)
Definition draws (n : nat) (g : rng_state) : rng_state :=
  Nat.iter n (fun g' => snd (rng_randint 0 80 g')) g.

(** The world after lines 60-106 of a run that found the generator in the
    state [g]. *)
Definition seeded (fed : federation) (g : rng_state) : world :=
  snd (initialize fed (set_random (rng_seed 1) (startup g))).

(** The world after the first time request of the loop. *)
Definition first_grant (cfg : settings) (fed : federation) (g : rng_state) : world :=
  granted (0 + inject_Z (update_interval cfg)) (seeded fed g).

(** How a run ends: with a horizon that is not positive, after no turn of
    the loop and [destroy_federate]; without fuel for the first turn; at
    line 157 without batteries; or in the update of battery 0, under zero
    voltage (reset, then line 139), under voltage (line 139), or without an
    SOC for it (line 140). *)
Inductive ending : Set :=
| Finalised
| Exhausted
| NoBattery
| Departed
| Charging
| Unknown.

Definition ending_of (cfg : settings) (fed : federation) (fuel : nat) : ending :=
  if Z.leb (total_interval cfg) 0 then Finalised
  else match fuel with
       | O => Exhausted
       | S _ =>
           match sub_count fed with
           | O => NoBattery
           | S _ =>
               if Qeq_bool (helicsInputGetDouble fed 0 0) 0 then Departed
               else match pub_count fed with
                    | O => Unknown
                    | S _ => Charging
                    end
           end
       end.

Definition end_of (cfg : settings) (fed : federation) (g : rng_state)
    (e : ending) : result unit * world :=
  match e with
  | Finalised => (Ok tt, finalize (seeded fed g))
  | Exhausted => (OutOfFuel, seeded fed g)
  | NoBattery =>
      (Raise NameError,
       collect_time
         (helicsFederateRequestTime fed 0 (0 + inject_Z (update_interval cfg)))
         (first_grant cfg fed g))
  | Departed => (Raise ValueError, reset 0 (first_grant cfg fed g))
  | Charging => (Raise ValueError, first_grant cfg fed g)
  | Unknown => (Raise KeyError, first_grant cfg fed g)
  end.

(** The traces and the flag are as they were, and no key left the store. *)
Definition off_the_record (w w' : world) : Prop :=
  between_grants w w' /\ published w' = published w /\ grows w w'.

(** As many time requests, and the same ones. *)
Definition same_requests (w w' : world) : Prop :=
  grants w' = grants w /\ requested w' = requested w.

End Runs.

(** ** A generator to run the model on *)

Definition lcg_next (g : Z) : Z := ((1103515245 * g + 12345) mod 2147483648)%Z.

Definition lcg_randint (low high g : Z) : Z * Z :=
  ((low + (lcg_next g / 65536) mod (high - low))%Z, lcg_next g).

#[export] Instance lcg : RandomState.
Proof.
  refine {| rng_state := Z;
            rng_seed := fun n => n;
            rng_randint := lcg_randint |}.
  intros low high g Hlt. unfold lcg_randint. cbn [fst].
  pose proof (Z.mod_pos_bound (lcg_next g / 65536) (high - low)). lia.
Defined.

(** A world in which battery 0 is half charged, and the HELICS answers of a
    federation of [n] batteries under a constant 400 V whose every time
    request is granted as asked. *)
Definition half_charged : @world lcg :=
  set_current_soc {[ 0%nat := np.Num 0.5 ]} (startup 1%Z).

Definition two_batteries : @world lcg :=
  set_current_soc {[ 0%nat := np.Num 0.6; 1%nat := np.Num 0.25 ]} (startup 1%Z).

Definition steady (n : nat) : federation := {|
  sub_count := n;
  pub_count := n;
  helicsInputGetDouble := fun _ _ => 400;
  helicsFederateRequestTime := fun _ t => t
|}.

(** * Properties *)

(** ** The interpolation call *)

Lemma interp_scalar_fp x xp q : np.interp x xp (np.Num q) = inl ValueError.
Proof. reflexivity. Qed.

(** C1.  At every breakpoint (indeed at every SOC) the call of line 139
    raises [ValueError]: it returns no resistance, so neither the node value
    at a breakpoint nor a value between two node values. *)
Theorem interp_call_raises_at_breakpoints :
  Forall (fun soc =>
            interp_call (np.Arr socs) (np.Arr effective_R) (np.Num soc)
            = inl ValueError) socs
  /\ forall soc,
       interp_call (np.Arr socs) (np.Arr effective_R) (np.Num soc)
       = inl ValueError.
Proof.
  split.
  - apply Forall_forall. intros soc _. apply interp_scalar_fp.
  - intros soc. apply interp_scalar_fp.
Qed.

(** C5.  The out-of-range queries [-1.0] and [2.0] (and the endpoints
    themselves) raise [ValueError] in the call of line 139 instead of being
    clamped. *)
Theorem interp_call_raises_out_of_range :
  interp_call (np.Arr socs) (np.Arr effective_R) (np.Num (-1)) = inl ValueError
  /\ interp_call (np.Arr socs) (np.Arr effective_R) (np.Num 2) = inl ValueError
  /\ interp_call (np.Arr socs) (np.Arr effective_R) (np.Num 0) = inl ValueError
  /\ interp_call (np.Arr socs) (np.Arr effective_R) (np.Num 1) = inl ValueError.
Proof. repeat split. Qed.

(** ** Running a computation step by step *)

Section Binds.

Context {RS : RandomState}.

Lemma bind_ok {A B} (c : M A) (k : A -> M B) w a w' :
  c w = (Ok a, w') -> bind c k w = k a w'.
Proof. intros H. unfold bind. by rewrite H. Qed.

Lemma bind_raise {A B} (c : M A) (k : A -> M B) w e w' :
  c w = (Raise e, w') -> bind c k w = (Raise e, w').
Proof. intros H. unfold bind. by rewrite H. Qed.

Lemma bind_ext {A B} (c1 c2 : M A) (k1 k2 : A -> M B) w1 w2 :
  c1 w1 = c2 w2 ->
  (forall a w', k1 a w' = k2 a w') ->
  bind c1 k1 w1 = bind c2 k2 w2.
Proof.
  intros Hc Hk. unfold bind. rewrite Hc.
  destruct (c2 w2) as [[a | e | |] w']; auto.
Qed.

Lemma for_each_ext js (body1 body2 : nat -> M unit) w :
  (forall j w', body1 j w' = body2 j w') ->
  for_each js body1 w = for_each js body2 w.
Proof.
  intros Hb. revert w. induction js as [|j js IH]; intros w; cbn [for_each].
  - reflexivity.
  - apply bind_ext; [apply Hb | intros _ w'; apply IH].
Qed.

End Binds.

(** ** One update, case by case *)

Section StepCases.

Context {RS : RandomState}.

Lemma reset_soc j w :
  current_soc (reset j w) !! j
  = Some (np.Num (inject_Z (fst (rng_randint 0 80 (random w))) / 100)).
Proof.
  unfold reset. destruct (rng_randint 0 80 (random w)) as [r g].
  cbn. apply lookup_insert_eq.
Qed.

Lemma reset_frame j w : frame j w (reset j w).
Proof.
  unfold reset, frame. destruct (rng_randint 0 80 (random w)) as [r g].
  cbn. repeat split. intros k Hk. by apply lookup_insert_ne.
Qed.

Lemma reset_quiet j w : quiet w (reset j w).
Proof.
  unfold reset, quiet. destruct (rng_randint 0 80 (random w)) as [r g].
  cbn. repeat split.
Qed.

Lemma step_live cfg j v w q :
  Qeq_bool v 0 = false ->
  current_soc w !! j = Some (np.Num q) ->
  step cfg j v w = (Raise ValueError, w).
Proof.
  intros Hv Hq. unfold step, step_with, reconnect, charge, bind, gets, get_soc.
  rewrite Hv. cbn. rewrite Hq. reflexivity.
Qed.

Lemma step_unknown cfg j v w :
  Qeq_bool v 0 = false ->
  current_soc w !! j = None ->
  step cfg j v w = (Raise KeyError, w).
Proof.
  intros Hv Hq. unfold step, step_with, reconnect, charge, bind, gets, get_soc.
  rewrite Hv. cbn. rewrite Hq. reflexivity.
Qed.

Lemma step_departed cfg j v w :
  Qeq_bool v 0 = true ->
  step cfg j v w = (Raise ValueError, reset j w).
Proof.
  intros Hv. unfold step, step_with, reconnect, charge, bind, gets, get_soc.
  rewrite Hv. unfold draw_soc, bind, np_random_randint, put_soc, modify, reset.
  destruct (rng_randint 0 80 (random w)) as [r g]. cbn.
  rewrite lookup_insert_eq. reflexivity.
Qed.

(** On a store of scalars, the update raises, and leaves the world as it
    was or as the reset made it. *)
Lemma step_raises cfg j v w :
  scalar_store (current_soc w) ->
  exists e, step cfg j v w = (Raise e, w)
            \/ step cfg j v w = (Raise e, reset j w).
Proof.
  intros Hs. destruct (Qeq_bool v 0) eqn:Hv.
  - exists ValueError. right. by apply step_departed.
  - destruct (current_soc w !! j) as [s|] eqn:Hj.
    + destruct (Hs _ _ Hj) as [q ->]. exists ValueError. left.
      by eapply step_live.
    + exists KeyError. left. by apply step_unknown.
Qed.

End StepCases.

(** ** Reasoning about what a computation keeps *)

Section Keeps.

Context {RS : RandomState}.
Context (P : world -> world -> Prop) `{!PreOrder P}.

Lemma keeps_ret {A} (a : A) : keeps P (ret a).
Proof. intros w. cbn. reflexivity. Qed.

Lemma keeps_raise {A} e : keeps P (raise (A := A) e).
Proof. intros w. cbn. reflexivity. Qed.

Lemma keeps_gets {A} (f : world -> A) : keeps P (gets f).
Proof. intros w. cbn. reflexivity. Qed.

Lemma keeps_lift {A} (r : exn + A) : keeps P (lift r).
Proof. destruct r; [apply keeps_raise | apply keeps_ret]. Qed.

Lemma keeps_lift_finite {A} (r : option (exn + A)) : keeps P (lift_finite r).
Proof.
  destruct r as [r|]; [apply keeps_lift |]. intros w. cbn. reflexivity.
Qed.

Lemma keeps_get_soc j : keeps P (get_soc j).
Proof.
  intros w. unfold get_soc. destruct (current_soc w !! j); cbn; reflexivity.
Qed.

Lemma keeps_modify f : (forall w, P w (f w)) -> keeps P (modify f).
Proof. intros Hf w. cbn. apply Hf. Qed.

Lemma keeps_bind {A B} (c : M A) (k : A -> M B) :
  keeps P c -> (forall a, keeps P (k a)) -> keeps P (bind c k).
Proof.
  intros Hc Hk w. unfold bind. specialize (Hc w).
  destruct (c w) as [[a | e | |] w']; cbn in *; try assumption.
  etransitivity; [exact Hc | apply Hk].
Qed.

Lemma keeps_for_each js body :
  (forall j, keeps P (body j)) -> keeps P (for_each js body).
Proof.
  intros Hb. induction js as [|j js IH]; cbn [for_each].
  - apply keeps_ret.
  - apply keeps_bind; [apply Hb | intros _; exact IH].
Qed.

Lemma keeps_randint low high :
  (forall g w, P w (set_random g w)) -> keeps P (np_random_randint low high).
Proof.
  intros Hg w. unfold np_random_randint.
  destruct (rng_randint low high (random w)) as [r g]. cbn. apply Hg.
Qed.

Lemma keeps_draw_soc :
  (forall g w, P w (set_random g w)) -> keeps P draw_soc.
Proof.
  intros Hg. unfold draw_soc. apply keeps_bind.
  - by apply keeps_randint.
  - intros r. apply keeps_ret.
Qed.

End Keeps.

Section Frame.

Context {RS : RandomState}.

#[local] Instance frame_preorder j : PreOrder (frame j).
Proof.
  split.
  - intros w. by repeat split.
  - intros w1 w2 w3 (Hs1 & Hx1 & Hy1) (Hs2 & Hx2 & Hy2). repeat split.
    + intros k Hk. rewrite Hs2, Hs1; done.
    + congruence.
    + congruence.
Qed.

Lemma frame_put_soc j v : keeps (frame j) (put_soc j v).
Proof.
  apply keeps_modify. intros w. repeat split. cbn.
  intros k Hk. by apply lookup_insert_ne.
Qed.

(** Whatever the interpolation call is, an update of battery [j] stays
    within battery [j]. *)
Lemma step_with_frame lookup cfg j v : keeps (frame j) (step_with lookup cfg j v).
Proof.
  unfold step_with, reconnect, charge.
  repeat lazymatch goal with
    | |- keeps _ (bind _ _) => apply keeps_bind; [apply _ | | intros ?]
    | |- keeps _ (if ?b then _ else _) => destruct b
    | |- keeps _ (ret _) => apply keeps_ret; apply _
    | |- keeps _ (gets _) => apply keeps_gets; apply _
    | |- keeps _ (get_soc _) => apply keeps_get_soc; apply _
    | |- keeps _ (lift _) => apply keeps_lift; apply _
    | |- keeps _ (lift_finite _) => apply keeps_lift_finite; apply _
    | |- keeps _ (put_soc _ _) => apply frame_put_soc
    | |- keeps _ draw_soc => apply keeps_draw_soc; [apply _ | by intros ? ?]
    | |- keeps _ (modify _) => apply keeps_modify; by intros ?
    end.
Qed.

End Frame.

(** ** Which exceptions an update can raise *)

Lemma interp_raises x xp fp e : np.interp x xp fp = inl e -> e = ValueError.
Proof.
  unfold np.interp, np.as_1d. destruct fp as [q | dy]; [congruence |].
  destruct xp as [q | dx]; [congruence |].
  destruct (Nat.eqb (length dx) 0); [congruence |].
  destruct (negb (Nat.eqb (length dy) (length dx))); congruence.
Qed.

Lemma broadcast_raises f a b e : np.broadcast f a b = inl e -> e = ValueError.
Proof.
  destruct a as [x | xs], b as [y | ys]; cbn; try discriminate.
  destruct (Nat.eqb (length xs) (length ys)); congruence.
Qed.

Lemma divide_raises a b e : np.divide a b = Some (inl e) -> e = ValueError.
Proof.
  unfold np.divide. destruct (np.has_zero b); [discriminate |].
  intros H. injection H as H. by apply broadcast_raises in H.
Qed.

Section Throws.

Context {RS : RandomState}.
Context (ok : exn -> Prop).

Lemma throws_total {A} (c : M A) :
  (forall w e, fst (c w) <> Raise e) -> throws ok c.
Proof. intros H w e He. by destruct (H w e). Qed.

Lemma throws_lift {A} (r : exn + A) :
  (forall e, r = inl e -> ok e) -> throws ok (lift r).
Proof.
  intros H w e He. destruct r as [e' | a]; cbn in He; [| discriminate].
  injection He as <-. by apply H.
Qed.

Lemma throws_lift_finite {A} (r : option (exn + A)) :
  (forall e, r = Some (inl e) -> ok e) -> throws ok (lift_finite r).
Proof.
  intros H w e He. destruct r as [[e' | a] |]; cbn in He; try discriminate.
  injection He as <-. by apply H.
Qed.

Lemma throws_get_soc j : ok KeyError -> throws ok (get_soc j).
Proof.
  intros H w e He. unfold get_soc in He.
  destruct (current_soc w !! j); cbn in He; [discriminate |].
  by injection He as <-.
Qed.

Lemma throws_bind {A B} (c : M A) (k : A -> M B) :
  throws ok c -> (forall a, throws ok (k a)) -> throws ok (bind c k).
Proof.
  intros Hc Hk w e He. unfold bind in He. specialize (Hc w).
  destruct (c w) as [[a | e' | |] w']; cbn in *; try discriminate.
  - by apply (Hk a w').
  - injection He as <-. by apply Hc.
Qed.

Lemma throws_draw_soc : throws ok draw_soc.
Proof.
  apply throws_total. intros w e. unfold draw_soc, bind, np_random_randint.
  by destruct (rng_randint 0 80 (random w)).
Qed.

(** An update raises what its interpolation call raises, [ValueError] (from
    numpy) or [KeyError] (from the SOC store), and nothing else. *)
Lemma step_with_throws lookup cfg j v :
  ok ValueError -> ok KeyError ->
  (forall xs ys soc e, lookup xs ys soc = inl e -> ok e) ->
  throws ok (step_with lookup cfg j v).
Proof.
  intros Hv Hk Hl. unfold step_with, reconnect, charge.
  repeat lazymatch goal with
    | |- throws _ (bind _ _) => apply throws_bind; [| intros ?]
    | |- throws _ (if ?b then _ else _) => destruct b
    | |- throws _ (ret _) => apply throws_total; by intros ? ?
    | |- throws _ (gets _) => apply throws_total; by intros ? ?
    | |- throws _ (modify _) => apply throws_total; by intros ? ?
    | |- throws _ (put_soc _ _) => apply throws_total; by intros ? ?
    | |- throws _ draw_soc => apply throws_draw_soc
    | |- throws _ (get_soc _) => by apply throws_get_soc
    | |- throws _ (lift (lookup _ _ _)) => apply throws_lift; apply Hl
    | |- throws _ (lift (_ _ _)) =>
        apply throws_lift; intros ? He; apply broadcast_raises in He; by subst
    | |- throws _ (lift_finite _) =>
        apply throws_lift_finite; intros ? He; apply divide_raises in He;
        by subst
    end.
Qed.

End Throws.

Section Unguarded.

Context {RS : RandomState}.

(** No update ends in an [ArithmeticError]: line 142 has no guard, and numpy
    does not raise on a zero divisor. *)
Lemma step_raises_no_ArithmeticError cfg j v w e :
  fst (step cfg j v w) = Raise e -> is_ArithmeticError e = false.
Proof.
  apply (step_with_throws (fun e => is_ArithmeticError e = false)
           interp_call cfg j v); try reflexivity.
  intros xs ys soc e' He. by apply interp_raises in He as ->.
Qed.

Lemma spec_step_raises_no_ArithmeticError cfg j v w e :
  fst (spec_step cfg j v w) = Raise e -> is_ArithmeticError e = false.
Proof.
  apply (step_with_throws (fun e => is_ArithmeticError e = false)
           spec_interp_call cfg j v); try reflexivity.
  intros xs ys soc e' He. by apply interp_raises in He as ->.
Qed.

End Unguarded.

(** ** Draws, initialisation and reset *)

Section Draws.

Context {RS : RandomState}.

Lemma soc_of_draw_range k :
  (0 <= k < 80)%Z -> 0 <= inject_Z k / 100 /\ inject_Z k / 100 < 0.8.
Proof.
  intros [Hlo Hhi].
  rewrite Zle_Qle in Hlo. rewrite Zlt_Qlt in Hhi.
  change (inject_Z 0) with 0 in Hlo. change (inject_Z 80) with 80 in Hhi.
  split.
  - apply Qle_shift_div_l; lra.
  - apply Qlt_shift_div_r; lra.
Qed.

(** A value of the grid is a whole number of hundredths. *)
Lemma on_grid_hundredths q :
  on_grid (np.Num q) ->
  exists k : Z, (0 <= k < 80)%Z /\ q == inject_Z k * 0.01.
Proof.
  intros (k & Hk & H). injection H as ->. exists k. split; [exact Hk |].
  unfold Qdiv. apply Qmult_comp; reflexivity.
Qed.

Lemma draw_then_put j w :
  bind draw_soc (fun soc0 => put_soc j soc0) w = (Ok tt, reset j w).
Proof.
  unfold draw_soc, bind, np_random_randint, put_soc, modify, reset.
  destruct (rng_randint 0 80 (random w)) as [r g]. reflexivity.
Qed.

Lemma reset_on_grid j w :
  exists s, current_soc (reset j w) !! j = Some s /\ on_grid s.
Proof.
  eexists. split; [apply reset_soc |].
  exists (fst (rng_randint 0 80 (random w))). split; [| reflexivity].
  apply rng_randint_range. lia.
Qed.

Lemma reset_grid_store j w :
  grid_store (current_soc w) -> grid_store (current_soc (reset j w)).
Proof.
  intros Hg k v Hk. destruct (decide (k = j)) as [-> | Hne].
  - destruct (reset_on_grid j w) as (s & Hs & Hon). congruence.
  - destruct (reset_frame j w) as (Hf & _). rewrite Hf in Hk by done. eauto.
Qed.

Lemma grid_store_scalar m : grid_store m -> scalar_store m.
Proof. intros Hg j v Hj. destruct (Hg j v Hj) as (k & _ & ->). eauto. Qed.

#[local] Instance grid_kept_preorder :
  PreOrder (fun w w' : world =>
              grid_store (current_soc w) -> grid_store (current_soc w')).
Proof. split; [intros w | intros w1 w2 w3]; auto. Qed.

#[local] Instance quiet_preorder : PreOrder quiet.
Proof.
  split.
  - intros w. by repeat split.
  - intros w1 w2 w3 H1 H2. unfold quiet in *.
    destruct H1 as (? & ? & ? & ? & ? & ? & ? & ? & ?).
    destruct H2 as (? & ? & ? & ? & ? & ? & ? & ? & ?).
    repeat split; congruence.
Qed.

Lemma draw_loop_ok js w :
  fst (for_each js (fun i => bind draw_soc (fun soc0 => put_soc i soc0)) w)
  = Ok tt.
Proof.
  revert w. induction js as [|j js IH]; intros w; cbn [for_each].
  - reflexivity.
  - unfold bind at 1. cbv beta. rewrite draw_then_put. apply IH.
Qed.

Lemma initialize_ok fed w : fst (initialize fed w) = Ok tt.
Proof. unfold initialize, for_range. apply draw_loop_ok. Qed.

Lemma initialize_grid fed w :
  grid_store (current_soc (snd (initialize fed w))).
Proof.
  unfold initialize, for_range, bind, modify.
  set (w0 := set_current_soc ∅ w).
  assert (Hkeeps : keeps (fun w w' : world =>
              grid_store (current_soc w) -> grid_store (current_soc w'))
            (for_each (seq 0 (pub_count fed))
               (fun i => bind draw_soc (fun soc0 => put_soc i soc0)))).
  { apply keeps_for_each; [apply _ |]. intros j w1.
    rewrite draw_then_put. apply reset_grid_store. }
  apply (Hkeeps w0). intros j v Hj. cbn in Hj. by rewrite lookup_empty in Hj.
Qed.

Lemma initialize_quiet fed : keeps quiet (initialize fed).
Proof.
  unfold initialize, for_range. apply keeps_bind; [apply _ | |].
  - apply keeps_modify. intros w. by repeat split.
  - intros _. apply keeps_for_each; [apply _ |]. intros j w.
    rewrite draw_then_put. apply reset_quiet.
Qed.

#[local] Instance grows_preorder : PreOrder grows.
Proof. split; [intros w | intros w1 w2 w3]; unfold grows; auto. Qed.

Lemma reset_grows j w : grows w (reset j w).
Proof.
  intros k Hk. destruct (decide (k = j)) as [-> | Hne].
  - rewrite reset_soc. eauto.
  - destruct (reset_frame j w) as (Hf & _). by rewrite Hf.
Qed.

Lemma draw_loop_keys js w j :
  j ∈ js ->
  is_Some (current_soc
             (snd (for_each js (fun i => bind draw_soc (fun soc0 => put_soc i soc0)) w))
           !! j).
Proof.
  intros Hj. revert w. induction Hj as [j js | j i js Hj IH]; intros w;
    cbn [for_each]; unfold bind at 1; cbv beta; rewrite draw_then_put.
  - apply (keeps_for_each grows js
             (fun i => bind draw_soc (fun soc0 => put_soc i soc0))).
    + intros i w1. rewrite draw_then_put. apply reset_grows.
    + rewrite reset_soc. eauto.
  - apply IH.
Qed.

Lemma initialize_ready fed g :
  ready (pub_count fed) (snd (initialize fed (set_random (rng_seed 1) (startup g)))).
Proof.
  set (w0 := set_random (rng_seed 1) (startup g)).
  destruct (initialize_quiet fed w0) as (Hx & Hy & _).
  split; [exact Hx |]. split; [exact Hy |]. intros j Hj.
  assert (Hin : j ∈ seq 0 (pub_count fed)).
  { apply list_elem_of_In, in_seq. lia. }
  destruct (draw_loop_keys _ (set_current_soc ∅ w0) j Hin) as [s Hs].
  change (current_soc (snd (initialize fed w0)) !! j = Some s) in Hs.
  destruct (grid_store_scalar _ (initialize_grid fed w0) j s Hs) as [q ->].
  eauto.
Qed.

End Draws.

(** ** The update as written *)

Section StepClaims.

Context {RS : RandomState}.

(** C2.  Under a voltage other than zero, the update of a battery that
    holds a scalar SOC raises [ValueError] at the interpolation call: no
    current is returned, no energy is added, the world is as before. *)
Theorem step_charging_raises cfg j v w q :
  ~ v == 0 ->
  current_soc w !! j = Some (np.Num q) ->
  step cfg j v w = (Raise ValueError, w).
Proof.
  intros Hv Hq. apply step_live with (q := q); [| exact Hq].
  destruct (Qeq_bool v 0) eqn:E; [| reflexivity].
  apply Qeq_bool_iff in E. contradiction.
Qed.

(** C9.  On a store of scalar SOCs the update returns no current at all,
    whatever the voltage, non-negative or not. *)
Theorem step_returns_no_current cfg j v w :
  0 <= v ->
  scalar_store (current_soc w) ->
  forall i, fst (step cfg j v w) <> Ok i.
Proof.
  intros _ Hs i. destruct (step_raises cfg j v w Hs) as [e [-> | ->]]; discriminate.
Qed.

(** C4.  Under zero voltage the update first replaces the battery's SOC by
    a fresh draw [k/100], [k] the next [randint(0, 80)] of the generator,
    and only then runs the computation of lines 138-147, from the world
    that the reset left.  The SOC it leaves is that draw: a value of
    [0, 0.80) that depends on the generator alone, not on the SOC held
    before. *)
Theorem step_zero_voltage_resets cfg j v w :
  v == 0 ->
  let k := fst (rng_randint 0 80 (random w)) in
  step cfg j v w = charge interp_call cfg j v (reset j w)
  /\ current_soc (reset j w) !! j = Some (np.Num (inject_Z k / 100))
  /\ current_soc (snd (step cfg j v w)) !! j = Some (np.Num (inject_Z k / 100))
  /\ 0 <= inject_Z k / 100
  /\ inject_Z k / 100 < 0.8.
Proof.
  intros Hv k. apply Qeq_bool_iff in Hv. split; [| split; [| split]].
  - unfold step, step_with.
    rewrite (bind_ok _ _ w tt (reset j w)); [reflexivity |].
    unfold reconnect. rewrite Hv. apply draw_then_put.
  - apply reset_soc.
  - rewrite step_departed by exact Hv. apply reset_soc.
  - apply soc_of_draw_range. apply rng_randint_range. lia.
Qed.

(** C8.  An update of battery [j] leaves the SOC of every other battery
    and both tables as they were. *)
Theorem step_touches_one_unit cfg j v w :
  (forall k, k <> j ->
     current_soc (snd (step cfg j v w)) !! k = current_soc w !! k)
  /\ g_socs (snd (step cfg j v w)) = g_socs w
  /\ g_effective_R (snd (step cfg j v w)) = g_effective_R w.
Proof. apply (step_with_frame interp_call cfg j v w). Qed.

(** C10.  Every SOC that the initialisation stores, and the SOC that the
    zero-voltage reset stores, is [k/100] for an integer [k] of [0, 80):
    one of 0.00, 0.01, ..., 0.79. *)
Theorem soc_draws_on_grid :
  (forall fed w i s,
      current_soc (snd (initialize fed w)) !! i = Some s -> on_grid s)
  /\ (forall cfg j v w,
        v == 0 ->
        exists s, current_soc (snd (step cfg j v w)) !! j = Some s
                  /\ on_grid s).
Proof.
  split.
  - intros fed w i s Hi. exact (initialize_grid fed w i s Hi).
  - intros cfg j v w Hv. apply Qeq_bool_iff in Hv.
    rewrite step_departed by exact Hv. apply reset_on_grid.
Qed.

End StepClaims.

Lemma half_charged_scalar : scalar_store (current_soc half_charged).
Proof.
  intros j v Hj. cbn in Hj. apply lookup_singleton_Some in Hj as [_ <-]. eauto.
Qed.

Lemma step_charging_raises_witness :
  ~ 400 == 0
  /\ current_soc half_charged !! 0%nat = Some (np.Num 0.5)
  /\ step tutorial 0 400 half_charged = (Raise ValueError, half_charged).
Proof.
  assert (Hv : ~ 400 == 0) by (intros H; discriminate H).
  assert (Hq : current_soc half_charged !! 0%nat = Some (np.Num 0.5))
    by reflexivity.
  exact (conj Hv (conj Hq (step_charging_raises tutorial 0 400 half_charged 0.5 Hv Hq))).
Defined.

Lemma step_returns_no_current_witness :
  0 <= 400
  /\ scalar_store (current_soc half_charged)
  /\ forall i, fst (step tutorial 0 400 half_charged) <> Ok i.
Proof.
  assert (Hv : 0 <= 400) by (intros H; discriminate H).
  exact (conj Hv (conj half_charged_scalar
           (step_returns_no_current tutorial 0 400 half_charged Hv half_charged_scalar))).
Defined.

Lemma step_zero_voltage_resets_witness :
  0 == 0
  /\ step tutorial 0 0 half_charged
     = charge interp_call tutorial 0 0 (reset 0 half_charged)
  /\ current_soc (reset 0 half_charged) !! 0%nat
     = Some (np.Num (inject_Z 38 / 100))
  /\ current_soc (snd (step tutorial 0 0 half_charged)) !! 0%nat
     = Some (np.Num (inject_Z 38 / 100))
  /\ 0 <= inject_Z 38 / 100
  /\ inject_Z 38 / 100 < 0.8.
Proof.
  assert (Hv : 0 == 0) by reflexivity.
  exact (conj Hv (step_zero_voltage_resets tutorial 0 0 half_charged Hv)).
Defined.

Lemma step_touches_one_unit_witness :
  1%nat <> 0%nat
  /\ current_soc (snd (step tutorial 0 0 two_batteries)) !! 1%nat
     = current_soc two_batteries !! 1%nat.
Proof.
  assert (Hne : 1%nat <> 0%nat) by discriminate.
  exact (conj Hne (proj1 (step_touches_one_unit tutorial 0 0 two_batteries) 1%nat Hne)).
Defined.

Lemma soc_draws_on_grid_witness :
  current_soc (snd (initialize (steady 2) (startup (RS := lcg) 1%Z))) !! 0%nat
  = Some (np.Num (inject_Z 38 / 100))
  /\ on_grid (np.Num (inject_Z 38 / 100)).
Proof.
  assert (H : current_soc (snd (initialize (steady 2) (startup (RS := lcg) 1%Z)))
              !! 0%nat = Some (np.Num (inject_Z 38 / 100))) by reflexivity.
  exact (conj H (proj1 soc_draws_on_grid (steady 2) (startup 1%Z) 0%nat _ H)).
Defined.

(** ** The loop as written *)

Section LoopClaims.

Context {RS : RandomState}.

Lemma step_value_error cfg j v w q :
  current_soc w !! j = Some (np.Num q) ->
  fst (step cfg j v w) = Raise ValueError.
Proof.
  intros Hq. destruct (Qeq_bool v 0) eqn:Hv.
  - by rewrite step_departed.
  - by rewrite (step_live cfg j v w q).
Qed.

Lemma battery_raises cfg fed k j w :
  scalar_store (current_soc w) ->
  exists e w',
    battery interp_call cfg fed k j w = (Raise e, w')
    /\ quiet w w'
    /\ (is_Some (current_soc w !! j) -> e = ValueError).
Proof.
  intros Hs. unfold battery. cbv zeta.
  set (v := helicsInputGetDouble fed k j).
  assert (Hval : forall e w',
             step cfg j v w = (Raise e, w') ->
             is_Some (current_soc w !! j) -> e = ValueError).
  { intros e w' H [s Hj]. destruct (Hs j s Hj) as [q ->].
    pose proof (step_value_error cfg j v w q Hj) as Hv.
    rewrite H in Hv. by injection Hv. }
  destruct (step_raises cfg j v w Hs) as [e [H | H]].
  - exists e, w. split; [by apply bind_raise |].
    split; [by repeat split | by apply (Hval e w)].
  - exists e, (reset j w). split; [by apply bind_raise |].
    split; [apply reset_quiet | by apply (Hval e (reset j w))].
Qed.

(** A turn of the loop that starts on a store of scalars, with
    [charging_current] not yet bound, ends in an exception: in the update
    of battery 0, or, without batteries, at line 157. *)
Lemma tick_raises cfg fed t w :
  scalar_store (current_soc w) ->
  charging_current w = None ->
  exists e w',
    tick interp_call cfg fed t w = (Raise e, w')
    /\ grants w' = S (grants w)
    /\ current w' = current w
    /\ published w' = published w
    /\ finalized w' = finalized w
    /\ (sub_count fed = 0%nat -> e = NameError)
    /\ ((1 <= sub_count fed)%nat -> is_Some (current_soc w !! 0%nat) ->
        e = ValueError).
Proof.
  intros Hs Hc. unfold tick.
  rewrite (bind_ok _ _ w (grants w) w) by reflexivity.
  set (w2 := granted (t + inject_Z (update_interval cfg)) w).
  rewrite (bind_ok _ _ w tt w2) by reflexivity.
  unfold for_range. destruct (sub_count fed) as [|n]; cbn [seq for_each].
  - rewrite (bind_ok _ _ w2 tt w2) by reflexivity.
    erewrite bind_ok by reflexivity.
    erewrite bind_ok by reflexivity.
    cbn [charging_current collect_time]. subst w2. cbn [charging_current granted].
    rewrite Hc. do 2 eexists. split; [reflexivity |].
    repeat split; try done. intros ?. lia.
  - destruct (battery_raises cfg fed (grants w) 0 w2 Hs) as (e & w3 & H & Hq & He).
    exists e, w3. split; [apply bind_raise; apply bind_raise; exact H |].
    destruct Hq as (_ & _ & _ & _ & ? & ? & _ & ? & ?).
    repeat split; done.
Qed.

Lemma main_first_tick cfg fed fuel g :
  (0 < total_interval cfg)%Z ->
  exists e w,
    main cfg fed (S fuel) (startup g) = (Raise e, w)
    /\ grants w = 1%nat
    /\ current w = []
    /\ published w = []
    /\ finalized w = false
    /\ (sub_count fed = 0%nat -> e = NameError)
    /\ ((1 <= sub_count fed <= pub_count fed)%nat -> e = ValueError).
Proof.
  intros Htot. unfold main, main_with.
  set (w0 := set_random (rng_seed 1) (startup g)).
  rewrite (bind_ok _ _ (startup g) tt w0) by reflexivity.
  pose proof (initialize_ok fed w0) as Hok.
  pose proof (initialize_grid fed w0) as Hgrid.
  pose proof (initialize_quiet fed w0) as Hq.
  pose proof (initialize_ready fed g) as Hr. fold w0 in Hr.
  destruct (initialize fed w0) as [r w1] eqn:Hinit. cbn [fst snd] in *.
  subst r. rewrite (bind_ok _ _ w0 tt w1 Hinit).
  destruct Hq as (_ & _ & Hcc & _ & Hcur & Hgr & _ & Hpub & Hfin).
  cbn in Hcc, Hcur, Hgr, Hpub, Hfin.
  destruct (tick_raises cfg fed 0 w1 (grid_store_scalar _ Hgrid) Hcc)
    as (e & w2 & Htick & Hg2 & Hc2 & Hp2 & Hf2 & Hnone & Hsome).
  exists e, w2. split.
  - apply bind_raise. cbn [loop].
    replace (Qle_bool (inject_Z (total_interval cfg)) 0) with false.
    + apply bind_raise. exact Htick.
    + symmetry. apply not_true_is_false. intros H. apply Qle_bool_iff in H.
      change 0 with (inject_Z 0) in H. rewrite <- Zle_Qle in H. lia.
  - do 4 (split; [congruence |]). split; [exact Hnone |].
    intros [H1 H2]. apply Hsome; [exact H1 |].
    destruct Hr as (_ & _ & Hkeys). destruct (Hkeys 0%nat) as [q Hq0]; [lia |].
    eauto.
Qed.

(** C6.  With a horizon of 3600 s and steps of 60 s the loop does not
    complete a single turn: after the first grant the program ends in an
    exception, with nothing published or collected and the federate not
    finalised.  With batteries that all have a publication, the exception
    is the [ValueError] of the interpolation call; without batteries it is
    the [NameError] of line 157. *)
Theorem main_stops_in_first_tick fed fuel g :
  exists e w,
    main one_hour fed (S fuel) (startup g) = (Raise e, w)
    /\ grants w = 1%nat
    /\ current w = []
    /\ published w = []
    /\ finalized w = false
    /\ (sub_count fed = 0%nat -> e = NameError)
    /\ ((1 <= sub_count fed <= pub_count fed)%nat -> e = ValueError).
Proof.
  destruct (main_first_tick one_hour fed fuel g) as (e & w & H);
    [reflexivity |].
  exists e, w. exact H.
Qed.

End LoopClaims.

(** ** Determinism *)

Section Determinism.

Context {RS : RandomState}.
Context (lookup : np.value -> np.value -> np.value -> exn + np.value).
Context (cfg : settings) (fed1 fed2 : federation).
Context (Hsame : same_answers fed1 fed2).

Lemma battery_same k j w :
  battery lookup cfg fed1 k j w = battery lookup cfg fed2 k j w.
Proof.
  destruct Hsame as (_ & Hpub & Hin & _). unfold battery. cbv zeta.
  rewrite Hin, Hpub. reflexivity.
Qed.

Lemma tick_same t w : tick lookup cfg fed1 t w = tick lookup cfg fed2 t w.
Proof.
  pose proof Hsame as (Hsub & _ & _ & Hgr). unfold tick. cbv zeta.
  apply bind_ext; [reflexivity | intros k w1].
  apply bind_ext; [reflexivity | intros _ w2].
  apply bind_ext.
  - unfold for_range. rewrite Hsub. apply for_each_ext. intros j w3.
    apply battery_same.
  - intros _ w3. rewrite Hgr. reflexivity.
Qed.

Lemma loop_same fuel t w :
  loop lookup cfg fed1 fuel t w = loop lookup cfg fed2 fuel t w.
Proof.
  revert t w. induction fuel as [|fuel IH]; intros t w; cbn [loop].
  - reflexivity.
  - destruct (Qle_bool (inject_Z (total_interval cfg)) t); [reflexivity |].
    apply bind_ext; [apply tick_same | intros t' w'; apply IH].
Qed.

(** Whatever the interpolation call is: the run is a function of the seed
    and of the answers of HELICS, not of the state in which it finds
    numpy's generator. *)
Lemma main_with_same fuel g1 g2 :
  main_with lookup cfg fed1 fuel (startup g1)
  = main_with lookup cfg fed2 fuel (startup g2).
Proof.
  unfold main_with.
  apply bind_ext; [reflexivity | intros _ w1].
  apply bind_ext.
  - unfold initialize. destruct Hsame as (_ & -> & _). reflexivity.
  - intros _ w2. apply bind_ext; [apply loop_same | reflexivity].
Qed.

End Determinism.

(** C7.  Two runs that seed the generator alike (line 60) and get the same
    answers from HELICS -- the same voltage for every battery after every
    grant -- over the same tables end alike: the same outcome and the same
    final world, with the same sequence of published currents, whatever the
    generator's state was before. *)
Theorem main_deterministic `{RS : RandomState} cfg fed1 fed2 fuel g1 g2 :
  same_answers fed1 fed2 ->
  main cfg fed1 fuel (startup g1) = main cfg fed2 fuel (startup g2)
  /\ published (snd (main cfg fed1 fuel (startup g1)))
     = published (snd (main cfg fed2 fuel (startup g2))).
Proof.
  intros Hsame.
  pose proof (main_with_same interp_call cfg fed1 fed2 Hsame fuel g1 g2) as H.
  unfold main. split; [exact H | by rewrite H].
Qed.

Lemma main_deterministic_witness :
  same_answers (steady 2) (steady 2)
  /\ main tutorial (steady 2) 3 (startup (RS := lcg) 5%Z)
     = main tutorial (steady 2) 3 (startup (RS := lcg) 11%Z)
  /\ published (snd (main tutorial (steady 2) 3 (startup (RS := lcg) 5%Z)))
     = published (snd (main tutorial (steady 2) 3 (startup (RS := lcg) 11%Z))).
Proof.
  assert (H : same_answers (steady 2) (steady 2)) by (by repeat split).
  exact (conj H (main_deterministic tutorial (steady 2) (steady 2) 3 5%Z 11%Z H)).
Defined.

(** * The federate of the specification

    The same program with the interpolation called as section 4.1 of the
    specification describes it ([interpolate], [spec_step], [spec_main]):
    what the properties of the specification say holds there. *)

(** ** The interpolation *)

Lemma Qle_bool_false x y : Qle_bool x y = false -> y < x.
Proof.
  intros H. apply Qnot_le_lt. intros Hle. apply Qle_bool_iff in Hle. congruence.
Qed.

Lemma locate_between lo hi x nodes :
  Forall (fun p => lo <= snd p /\ snd p <= hi) nodes ->
  forall x0 y0, x0 <= x -> lo <= y0 -> y0 <= hi ->
  lo <= np.locate x x0 y0 nodes /\ np.locate x x0 y0 nodes <= hi.
Proof.
  induction 1 as [|[x1 y1] rest [Hlo Hhi] _ IH]; intros x0 y0 Hx Hl Hh; cbn [np.locate].
  - auto.
  - cbn [snd] in Hlo, Hhi. destruct (Qle_bool x1 x) eqn:E1.
    + apply IH; auto. by apply Qle_bool_iff.
    + apply Qle_bool_false in E1. destruct (Qeq_bool x0 x); [auto |].
      set (s := (y1 - y0) / (x1 - x0)).
      assert (Hs : s * (x1 - x0) == y1 - y0).
      { unfold s. field. lra. }
      destruct (Qlt_le_dec s 0); split; nra.
Qed.

Lemma interp_at_between lo hi xp fp x :
  xp <> [] -> length fp = length xp ->
  Forall (fun y => lo <= y /\ y <= hi) fp ->
  lo <= np.interp_at xp fp x /\ np.interp_at xp fp x <= hi.
Proof.
  intros Hne Hlen Hfp. unfold np.interp_at.
  destruct xp as [|x0 xp]; [done |]. destruct fp as [|y0 fp]; [done |].
  cbn [combine]. apply Forall_cons in Hfp as [[Hl Hh] Hfp].
  destruct (Qle_bool x0 x) eqn:E; [| auto].
  apply locate_between; auto.
  - apply Forall_forall. intros [a b] Hin. apply list_elem_of_In in Hin.
    apply in_combine_r in Hin. apply list_elem_of_In in Hin.
    rewrite Forall_forall in Hfp. by apply Hfp.
  - by apply Qle_bool_iff.
Qed.

Lemma interpolate_defined q :
  interpolate q = inr (np.Num (np.interp_at socs effective_R q)).
Proof. reflexivity. Qed.

Lemma interpolate_bounded q :
  2 <= np.interp_at socs effective_R q /\ np.interp_at socs effective_R q <= 21.
Proof.
  apply interp_at_between; [done | reflexivity |].
  unfold effective_R. repeat constructor; cbv; discriminate.
Qed.

Lemma interpolate_breakpoint i s r :
  socs !! i = Some s -> effective_R !! i = Some r ->
  interpolate s = inr (np.Num r).
Proof.
  intros Hs Hr.
  do 16 (destruct i as [|i]; [cbn in Hs, Hr; injection Hs as <-; injection Hr as <-; reflexivity |]).
  discriminate.
Qed.

Ltac scan q :=
  repeat match goal with
    | |- context [Qle_bool ?c q] =>
        let E := fresh "E" in
        destruct (Qle_bool c q) eqn:E;
        [apply Qle_bool_iff in E | apply Qle_bool_false in E]; try lra
    | |- context [Qeq_bool ?c q] =>
        let E := fresh "E" in
        destruct (Qeq_bool c q) eqn:E;
        [apply Qeq_bool_iff in E | apply Qeq_bool_neq in E]; try lra
    end.

Ltac slope :=
  match goal with
  | |- context [(?a - ?b) / (?c - ?d)] =>
      let s := constr:((a - b) / (c - d)) in
      let v := eval vm_compute in (Qred s) in
      setoid_replace s with v using relation Qeq
        by (unfold Qeq; vm_compute; reflexivity)
  end.

Lemma interpolate_between i a b ra rb q :
  socs !! i = Some a -> socs !! S i = Some b ->
  effective_R !! i = Some ra -> effective_R !! S i = Some rb ->
  a < q -> q < b ->
  ra < np.interp_at socs effective_R q /\ np.interp_at socs effective_R q < rb.
Proof.
  intros Ha Hb Hra Hrb.
  do 15 (destruct i as [|i];
    [cbn in Ha, Hb, Hra, Hrb;
     injection Ha as <-; injection Hb as <-; injection Hra as <-; injection Hrb as <-;
     intros Hlo Hhi; unfold np.interp_at, socs, effective_R; cbn [combine np.locate];
     scan q; slope; split; lra |]).
  discriminate.
Qed.

Lemma interpolate_left q : q <= 0 -> interpolate q = inr (np.Num 2).
Proof.
  intros Hq. rewrite interpolate_defined. do 2 f_equal.
  unfold np.interp_at, socs, effective_R; cbn [combine np.locate].
  scan q; reflexivity.
Qed.

Lemma interpolate_right q : 1 <= q -> interpolate q = inr (np.Num 21).
Proof.
  intros Hq. rewrite interpolate_defined. do 2 f_equal.
  unfold np.interp_at, socs, effective_R; cbn [combine np.locate].
  scan q; reflexivity.
Qed.

(** ** One update and the loop *)

Section SpecStep.

Context {RS : RandomState}.

Lemma resistance_positive cfg q :
  (0 < batt_cell_series cfg)%Z ->
  0 < inject_Z (batt_cell_series cfg) * np.interp_at socs effective_R q.
Proof.
  intros Hc. rewrite Zlt_Qlt in Hc. change (inject_Z 0) with 0 in Hc.
  destruct (interpolate_bounded q) as [Hlo _]. nra.
Qed.

Lemma spec_charge_ok cfg j v w q :
  g_socs w = np.Arr socs ->
  g_effective_R w = np.Arr effective_R ->
  current_soc w !! j = Some (np.Num q) ->
  (0 < batt_cell_series cfg)%Z ->
  let R := inject_Z (batt_cell_series cfg) * np.interp_at socs effective_R q in
  charge spec_interp_call cfg j v w
  = (Ok (np.Num (v / R)), charged cfg j v q (v / R) w).
Proof.
  intros Hx Hy Hq Hc R. unfold charge.
  rewrite (bind_ok _ _ w (np.Arr socs) w) by (unfold gets; by rewrite Hx).
  rewrite (bind_ok _ _ w (np.Arr effective_R) w) by (unfold gets; by rewrite Hy).
  rewrite (bind_ok _ _ w (np.Num q) w) by (unfold get_soc; by rewrite Hq).
  rewrite (bind_ok _ _ w (np.Num (np.interp_at socs effective_R q)) w) by reflexivity.
  rewrite (bind_ok _ _ w (np.Num R) w) by reflexivity.
  assert (HR : Qeq_bool R 0 = false).
  { apply not_true_is_false. intros H. apply Qeq_bool_iff in H.
    pose proof (resistance_positive cfg q Hc). fold R in H0. lra. }
  rewrite (bind_ok _ _ w (np.Num (v / R)) w).
  2:{ unfold np.divide. cbn [np.has_zero]. rewrite HR. reflexivity. }
  set (i := v / R). set (w1 := set_charging_current (np.Num i) w).
  rewrite (bind_ok _ _ w tt w1) by reflexivity.
  do 3 (erewrite bind_ok by reflexivity).
  rewrite (bind_ok _ _ w1 (np.Num q) w1) by (unfold get_soc; cbn; by rewrite Hq).
  erewrite bind_ok by reflexivity.
  erewrite bind_ok by reflexivity.
  reflexivity.
Qed.

(** The current is not negative under a voltage that is not. *)
Lemma spec_current_nonneg cfg v q :
  (0 < batt_cell_series cfg)%Z -> 0 <= v ->
  0 <= v / (inject_Z (batt_cell_series cfg) * np.interp_at socs effective_R q).
Proof.
  intros Hc Hv. apply Qle_shift_div_l.
  - by apply resistance_positive.
  - lra.
Qed.

#[local] Instance between_grants_preorder : PreOrder between_grants.
Proof.
  split.
  - intros w. by repeat split.
  - intros w1 w2 w3 (? & ? & ? & ? & ?) (? & ? & ? & ? & ?).
    repeat split; congruence.
Qed.

Lemma battery_between_grants lookup cfg fed k j :
  keeps between_grants (battery lookup cfg fed k j).
Proof.
  unfold battery, step_with, reconnect, charge. cbv zeta.
  repeat lazymatch goal with
    | |- keeps _ (bind _ _) => apply keeps_bind; [apply _ | | intros ?]
    | |- keeps _ (if ?b then _ else _) => destruct b
    | |- keeps _ (ret _) => apply keeps_ret; apply _
    | |- keeps _ (raise _) => apply keeps_raise; apply _
    | |- keeps _ (gets _) => apply keeps_gets; apply _
    | |- keeps _ (get_soc _) => apply keeps_get_soc; apply _
    | |- keeps _ (lift _) => apply keeps_lift; apply _
    | |- keeps _ (lift_finite _) => apply keeps_lift_finite; apply _
    | |- keeps _ draw_soc => apply keeps_draw_soc; [apply _ | by intros ? ?]
    | |- keeps _ (put_soc _ _) => apply keeps_modify; by intros ?
    | |- keeps _ (modify _) => apply keeps_modify; by intros ?
    end.
Qed.

Lemma reset_ready n j w : ready n w -> ready n (reset j w).
Proof.
  intros (Hx & Hy & Hs). destruct (reset_frame j w) as (Hf & Hx' & Hy').
  repeat split; [congruence | congruence |].
  intros k Hk. destruct (decide (k = j)) as [-> | Hne].
  - rewrite reset_soc. eauto.
  - rewrite Hf by done. auto.
Qed.

Lemma charged_ready n cfg j v q i w : ready n w -> ready n (charged cfg j v q i w).
Proof.
  intros (Hx & Hy & Hs). repeat split; [exact Hx | exact Hy |].
  intros k Hk. cbn. destruct (decide (k = j)) as [-> | Hne].
  - rewrite lookup_insert_eq. eauto.
  - rewrite lookup_insert_ne by done. auto.
Qed.

Lemma spec_step_ok n cfg j v w :
  ready n w -> (j < n)%nat -> (0 < batt_cell_series cfg)%Z ->
  exists i w',
    spec_step cfg j v w = (Ok (np.Num i), w')
    /\ ready n w'
    /\ charging_current w' = Some (np.Num i)
    /\ (0 <= v -> 0 <= i).
Proof.
  intros Hr Hj Hc. unfold spec_step, step_with.
  assert (Hre : exists w0, reconnect j v w = (Ok tt, w0) /\ ready n w0).
  { unfold reconnect. destruct (Qeq_bool v 0).
    - exists (reset j w). split; [apply draw_then_put | by apply reset_ready].
    - exists w. by split. }
  destruct Hre as (w0 & Hre & Hr0).
  rewrite (bind_ok _ _ w tt w0 Hre).
  pose proof Hr0 as (Hx & Hy & Hs). destruct (Hs j Hj) as [q Hq].
  rewrite (spec_charge_ok cfg j v w0 q Hx Hy Hq Hc).
  do 2 eexists. split; [reflexivity |]. split; [by apply charged_ready |].
  split; [reflexivity |]. intros Hv. by apply spec_current_nonneg.
Qed.

Section Run.

Context (cfg : settings) (fed : federation).
Context (Hcells : (0 < batt_cell_series cfg)%Z).
Context (Hsub : (1 <= sub_count fed <= pub_count fed)%nat).
Context (Hgrant : granted_as_asked fed).

Lemma spec_battery_ok k j w :
  ready (pub_count fed) w -> (j < pub_count fed)%nat ->
  exists w',
    battery spec_interp_call cfg fed k j w = (Ok tt, w')
    /\ ready (pub_count fed) w'
    /\ is_Some (charging_current w').
Proof.
  intros Hr Hj. unfold battery. cbv zeta.
  destruct (spec_step_ok _ cfg j (helicsInputGetDouble fed k j) w Hr Hj Hcells)
    as (i & w1 & Hstep & Hr1 & Hcc & _).
  fold (@spec_step RS) in Hstep. unfold spec_step in Hstep.
  rewrite (bind_ok _ _ w _ w1 Hstep).
  apply Nat.ltb_lt in Hj. rewrite Hj.
  eexists. split; [reflexivity |]. split; [exact Hr1 |].
  cbn [charging_current publish]. rewrite Hcc. eauto.
Qed.

Lemma spec_batteries_ok k js w :
  ready (pub_count fed) w ->
  Forall (fun j => (j < pub_count fed)%nat) js ->
  exists w',
    for_each js (battery spec_interp_call cfg fed k) w = (Ok tt, w')
    /\ ready (pub_count fed) w'
    /\ (js <> [] -> is_Some (charging_current w')).
Proof.
  intros Hr Hjs. revert w Hr.
  induction Hjs as [|j js Hj _ IH]; intros w Hr; cbn [for_each].
  - exists w. split; [reflexivity |]. split; [exact Hr |].
    intros H. by destruct H.
  - destruct (spec_battery_ok k j w Hr Hj) as (w1 & Hb & Hr1 & Hcc).
    rewrite (bind_ok _ _ w tt w1 Hb).
    destruct (IH w1 Hr1) as (w2 & Hf & Hr2 & Hcc2).
    exists w2. split; [exact Hf |]. split; [exact Hr2 |]. intros _.
    destruct js as [|j' js'].
    + cbn in Hf. by injection Hf as <-.
    + by apply Hcc2.
Qed.

Lemma spec_tick_ok t w :
  ready (pub_count fed) w ->
  exists w',
    tick spec_interp_call cfg fed t w
    = (Ok (t + inject_Z (update_interval cfg)), w')
    /\ ready (pub_count fed) w'
    /\ grants w' = S (grants w)
    /\ time_sim w' = (t + inject_Z (update_interval cfg)) :: time_sim w
    /\ length (current w') = S (length (current w))
    /\ finalized w' = finalized w.
Proof.
  intros Hr. unfold tick. cbv zeta.
  set (t' := t + inject_Z (update_interval cfg)).
  rewrite (bind_ok _ _ w (grants w) w) by reflexivity.
  rewrite Hgrant.
  set (w1 := granted t' w).
  rewrite (bind_ok _ _ w tt w1) by reflexivity.
  assert (Hr1 : ready (pub_count fed) w1) by exact Hr.
  assert (Hjs : Forall (fun j => (j < pub_count fed)%nat) (seq 0 (sub_count fed))).
  { apply Forall_forall. intros j Hj. apply list_elem_of_In, in_seq in Hj. lia. }
  destruct (spec_batteries_ok (grants w) _ w1 Hr1 Hjs) as (w2 & Hf & Hr2 & Hcc).
  pose proof (keeps_for_each between_grants (seq 0 (sub_count fed))
                (battery spec_interp_call cfg fed (grants w))
                (battery_between_grants _ cfg fed (grants w)) w1) as Hb.
  unfold for_range. rewrite Hf in Hb. cbn [snd] in Hb.
  destruct Hb as (Hts & Hcur & Hgr & _ & Hfin).
  rewrite (bind_ok _ _ w1 tt w2 Hf).
  erewrite bind_ok by reflexivity. erewrite bind_ok by reflexivity.
  destruct Hcc as [i Hi].
  { destruct (sub_count fed); [lia | done]. }
  cbn [charging_current collect_time]. rewrite Hi.
  erewrite bind_ok by reflexivity.
  eexists. split; [reflexivity |]. cbn.
  rewrite Hts, Hcur, Hgr, Hfin. split; [exact Hr2 | by repeat split].
Qed.

Lemma spec_loop_ok n : forall fuel t w,
  (0 < update_interval cfg)%Z ->
  t == inject_Z (total_interval cfg)
       - inject_Z (Z.of_nat n) * inject_Z (update_interval cfg) ->
  (n <= fuel)%nat ->
  ready (pub_count fed) w ->
  exists w',
    loop spec_interp_call cfg fed fuel t w = (Ok tt, w')
    /\ grants w' = (grants w + n)%nat
    /\ length (time_sim w') = (length (time_sim w) + n)%nat
    /\ length (current w') = (length (current w) + n)%nat
    /\ finalized w' = finalized w.
Proof.
  induction n as [|n IH]; intros fuel t w Hdt Ht Hfuel Hr.
  - assert (Hend : Qle_bool (inject_Z (total_interval cfg)) t = true).
    { apply Qle_bool_iff. change (inject_Z (Z.of_nat 0)) with 0 in Ht. lra. }
    exists w. destruct fuel; cbn [loop]; rewrite Hend;
      (split; [reflexivity | repeat split; lia]).
  - destruct fuel as [|fuel]; [lia |]. cbn [loop].
    pose proof Hdt as HdtZ.
    rewrite Zlt_Qlt in Hdt. change (inject_Z 0) with 0 in Hdt.
    assert (Hn : inject_Z (Z.of_nat (S n)) == inject_Z (Z.of_nat n) + 1).
    { rewrite Nat2Z.inj_succ. unfold Z.succ. by rewrite inject_Z_plus. }
    assert (H0n : 0 <= inject_Z (Z.of_nat n)).
    { change 0 with (inject_Z 0). rewrite <- Zle_Qle. lia. }
    rewrite Hn in Ht.
    assert (Hgo : Qle_bool (inject_Z (total_interval cfg)) t = false).
    { apply not_true_is_false. intros H. apply Qle_bool_iff in H. nra. }
    rewrite Hgo.
    destruct (spec_tick_ok t w Hr) as (w1 & Htick & Hr1 & Hg1 & Ht1 & Hc1 & Hf1).
    rewrite (bind_ok _ _ w _ w1 Htick).
    destruct (IH fuel (t + inject_Z (update_interval cfg)) w1) as (w2 & Hl & Hg2 & Ht2 & Hc2 & Hf2);
      [exact HdtZ | lra | lia | exact Hr1 |].
    exists w2. split; [exact Hl |]. rewrite Hg2, Ht2, Hc2, Hf2, Hg1, Ht1, Hc1, Hf1.
    cbn [length]. repeat split; lia.
Qed.

End Run.

(** With the interpolation of the specification, batteries present and
    every request granted as asked, an hour in steps of a minute is sixty
    turns of the loop, then the federate is finalised. *)
Lemma spec_main_one_hour fed fuel g :
  (1 <= sub_count fed <= pub_count fed)%nat ->
  granted_as_asked fed ->
  (60 <= fuel)%nat ->
  exists w,
    spec_main one_hour fed fuel (startup g) = (Ok tt, w)
    /\ grants w = 60%nat
    /\ length (time_sim w) = 60%nat
    /\ length (current w) = 60%nat
    /\ finalized w = true.
Proof.
  intros Hsub Hgrant Hfuel. unfold spec_main, main_with.
  set (w0 := set_random (rng_seed 1) (startup g)).
  rewrite (bind_ok _ _ (startup g) tt w0) by reflexivity.
  pose proof (initialize_ok fed w0) as Hok.
  pose proof (initialize_ready fed g) as Hr. fold w0 in Hr.
  pose proof (initialize_quiet fed w0) as Hq.
  destruct (initialize fed w0) as [r w1] eqn:Hinit. cbn [fst snd] in *.
  subst r. rewrite (bind_ok _ _ w0 tt w1 Hinit).
  destruct Hq as (_ & _ & _ & Hts & Hcur & Hgr & _ & _ & Hfin).
  cbn in Hts, Hcur, Hgr, Hfin.
  destruct (spec_loop_ok one_hour fed eq_refl Hsub Hgrant 60 fuel 0 w1)
    as (w2 & Hloop & Hg2 & Ht2 & Hc2 & Hf2);
    [reflexivity | reflexivity | exact Hfuel | exact Hr |].
  rewrite (bind_ok _ _ w1 tt w2 Hloop).
  eexists. split; [reflexivity |]. cbn.
  rewrite Hg2, Ht2, Hc2, Hgr, Hts, Hcur. by repeat split.
Qed.
End SpecStep.

(** ** The examples of the specification, on its own federate *)

Lemma interpolate_strictly_between i a b ra rb q :
  socs !! i = Some a -> socs !! S i = Some b ->
  effective_R !! i = Some ra -> effective_R !! S i = Some rb ->
  a < q -> q < b ->
  exists r, interpolate q = inr (np.Num r) /\ ra < r /\ r < rb.
Proof.
  intros Ha Hb Hra Hrb Hlo Hhi. eexists. split; [apply interpolate_defined |].
  exact (interpolate_between i a b ra rb q Ha Hb Hra Hrb Hlo Hhi).
Qed.

Lemma interpolate_clamps :
  interpolate (-1) = interpolate 0 /\ interpolate 2 = interpolate 1.
Proof.
  split.
  - rewrite !interpolate_left; [reflexivity | discriminate | discriminate].
  - rewrite !interpolate_right; [reflexivity | discriminate | discriminate].
Qed.

(** Between the breakpoints 0.4667 and 0.5333 the table gives 2.7333 at
    0.5; 2.7556 is its value at the breakpoint 0.6. *)
Lemma interpolate_half :
  exists r, interpolate 0.5 = inr (np.Num r) /\ r == 2.7333.
Proof. eexists. split; [reflexivity | reflexivity]. Qed.

Lemma interpolate_six_tenths : interpolate 0.6 = inr (np.Num 2.7556).
Proof. reflexivity. Qed.

(** The energy accumulation example, from the SOC at which the table gives
    2.7556: 96 cells, 400 V, 60 s. *)
Lemma spec_step_energy_example :
  exists i soc',
    spec_step tutorial 0 400 two_batteries
    = (Ok (np.Num i), charged tutorial 0 400 0.6 i two_batteries)
    /\ current_soc (charged tutorial 0 400 0.6 i two_batteries) !! 0%nat
       = Some (np.Num soc')
    /\ i == 400 / (2.7556 * 96)
    /\ soc' == 0.6 + i * 400 * 60 / 3600.
Proof.
  do 2 eexists. split; [| split; [| split]].
  - apply (spec_charge_ok tutorial 0 400 two_batteries 0.6); reflexivity.
  - apply lookup_insert_eq.
  - reflexivity.
  - reflexivity.
Qed.

(** The update of the specification returns a current that is not negative
    under a voltage that is not. *)
Lemma spec_step_current_nonneg `{RS : RandomState} n cfg j v w :
  ready n w -> (j < n)%nat -> (0 < batt_cell_series cfg)%Z -> 0 <= v ->
  exists i, fst (spec_step cfg j v w) = Ok (np.Num i) /\ 0 <= i.
Proof.
  intros Hr Hj Hc Hv.
  destruct (spec_step_ok n cfg j v w Hr Hj Hc) as (i & w' & H & _ & _ & Hi).
  exists i. rewrite H. split; [reflexivity | by apply Hi].
Qed.

(** ** A failure after the reset *)

(** Under zero voltage the update as written fails after line 136 has
    replaced the SOC: the failed update is a partial one. *)
Lemma failed_step_keeps_the_reset :
  fst (step tutorial 0 0 half_charged) = Raise ValueError
  /\ current_soc half_charged !! 0%nat = Some (np.Num 0.5)
  /\ current_soc (snd (step tutorial 0 0 half_charged)) !! 0%nat
     = Some (np.Num (inject_Z 38 / 100)).
Proof. repeat split. Qed.

(** A zero divisor at line 142 would not raise: with no cell in series the
    update of the specification ends with a non-finite current. *)
Lemma zero_series_is_not_guarded :
  spec_step {| total_interval := 3600; update_interval := 60;
               batt_cell_series := 0 |} 0 400 half_charged
  = (NonFinite, half_charged).
Proof. reflexivity. Qed.

(** * More of the federate as written *)

(** ** The initialisation (lines 104-106) *)

Section Initialisation.
Context {RS : RandomState}.

Lemma reset_random j w :
  random (reset j w) = snd (rng_randint 0 80 (random w)).
Proof. unfold reset. by destruct (rng_randint 0 80 (random w)). Qed.

Lemma draw_loop_absent js w j :
  j ∉ js ->
  current_soc (snd (for_each js (fun i => bind draw_soc (fun soc0 => put_soc i soc0)) w)) !! j
  = current_soc w !! j.
Proof.
  revert w. induction js as [|i js IH]; intros w Hj; cbn [for_each].
  - reflexivity.
  - apply not_elem_of_cons in Hj as [Hne Hj].
    unfold bind at 1. cbv beta. rewrite draw_then_put. rewrite IH by exact Hj.
    destruct (reset_frame i w) as (Hf & _). by apply Hf.
Qed.

Lemma draw_loop_random js w :
  random (snd (for_each js (fun i => bind draw_soc (fun soc0 => put_soc i soc0)) w))
  = draws (length js) (random w).
Proof.
  revert w. induction js as [|i js IH]; intros w; cbn [for_each length].
  - reflexivity.
  - unfold bind at 1. cbv beta. rewrite draw_then_put. rewrite IH, reset_random.
    unfold draws. by rewrite Nat.iter_succ_r.
Qed.

Lemma draw_loop_value n : forall s w i,
  (s <= i < s + n)%nat ->
  current_soc (snd (for_each (seq s n) (fun i => bind draw_soc (fun soc0 => put_soc i soc0)) w)) !! i
  = Some (np.Num (inject_Z (fst (rng_randint 0 80 (draws (i - s) (random w)))) / 100)).
Proof.
  induction n as [|n IH]; intros s w i Hi; [lia |]. cbn [seq for_each].
  unfold bind at 1. cbv beta. rewrite draw_then_put.
  destruct (decide (i = s)) as [-> | Hne].
  - rewrite draw_loop_absent.
    + rewrite reset_soc. by rewrite Nat.sub_diag.
    + intros Hin. apply list_elem_of_In, in_seq in Hin. lia.
  - rewrite IH by lia. rewrite reset_random.
    replace (i - s)%nat with (S (i - S s)) by lia.
    unfold draws. by rewrite Nat.iter_succ_r.
Qed.

Lemma initialize_absent fed w i :
  (pub_count fed <= i)%nat ->
  current_soc (snd (initialize fed w)) !! i = None.
Proof.
  intros Hi. unfold initialize, for_range.
  change (current_soc (snd (for_each (seq 0 (pub_count fed))
            (fun i => bind draw_soc (fun soc0 => put_soc i soc0))
            (set_current_soc ∅ w))) !! i = None).
  rewrite draw_loop_absent.
  - cbn. apply lookup_empty.
  - intros Hin. apply list_elem_of_In, in_seq in Hin. lia.
Qed.

(** X1.  After lines 104-106 the store holds an SOC for exactly the
    batteries below [pub_count], whatever it held before. *)
Theorem initialize_keys fed w i :
  is_Some (current_soc (snd (initialize fed w)) !! i) <-> (i < pub_count fed)%nat.
Proof.
  split.
  - intros Hsome. destruct (decide (i < pub_count fed)%nat) as [H | H]; [exact H |].
    rewrite initialize_absent in Hsome by lia. by destruct Hsome.
  - intros Hi.
    apply (draw_loop_keys (seq 0 (pub_count fed)) (set_current_soc ∅ w) i).
    apply list_elem_of_In, in_seq. lia.
Qed.

(** X2.  Battery [i] is initialised with the draw number [i] (from 0) of
    the generator: its SOC depends on the generator and on [i], not on how
    many batteries follow. *)
Theorem initialize_nth_draw fed w i :
  (i < pub_count fed)%nat ->
  current_soc (snd (initialize fed w)) !! i
  = Some (np.Num (inject_Z (fst (rng_randint 0 80 (draws i (random w)))) / 100)).
Proof.
  intros Hi.
  pose proof (draw_loop_value (pub_count fed) 0 (set_current_soc ∅ w) i) as H.
  rewrite Nat.sub_0_r in H. apply H. lia.
Qed.

(** X3.  The initialisation does not fail, draws exactly [pub_count]
    numbers, and moves nothing but the generator and the SOC store. *)
Theorem initialize_uses_pub_count_draws fed w :
  random (snd (initialize fed w)) = draws (pub_count fed) (random w)
  /\ quiet w (snd (initialize fed w))
  /\ fst (initialize fed w) = Ok tt.
Proof.
  split; [| split].
  - pose proof (draw_loop_random (seq 0 (pub_count fed)) (set_current_soc ∅ w)) as H.
    rewrite length_seq in H. exact H.
  - apply initialize_quiet.
  - apply initialize_ok.
Qed.

End Initialisation.


(** ** How a run ends (lines 59-162) *)

Section Run.
Context {RS : RandomState}.

Lemma seeded_run fed g :
  initialize fed (set_random (rng_seed 1) (startup g)) = (Ok tt, seeded fed g).
Proof.
  unfold seeded. pose proof (initialize_ok fed (set_random (rng_seed 1) (startup g))) as H.
  destruct (initialize fed _) as [r w]. cbn in *. by subst.
Qed.

Lemma seeded_quiet fed g : quiet (startup g) (seeded fed g).
Proof.
  destruct (initialize_quiet fed (set_random (rng_seed 1) (startup g)))
    as (? & ? & ? & ? & ? & ? & ? & ? & ?).
  unfold seeded. by repeat split.
Qed.

Lemma tick_no_battery cfg fed t w :
  sub_count fed = 0%nat ->
  charging_current w = None ->
  tick interp_call cfg fed t w
  = (Raise NameError,
     collect_time
       (helicsFederateRequestTime fed (grants w) (t + inject_Z (update_interval cfg)))
       (granted (t + inject_Z (update_interval cfg)) w)).
Proof.
  intros Hsub Hcc. unfold tick. cbv zeta.
  rewrite (bind_ok _ _ w (grants w) w) by reflexivity.
  set (w2 := granted (t + inject_Z (update_interval cfg)) w).
  rewrite (bind_ok _ _ w tt w2) by reflexivity.
  unfold for_range. rewrite Hsub. cbn [seq for_each].
  rewrite (bind_ok _ _ w2 tt w2) by reflexivity.
  erewrite bind_ok by reflexivity. erewrite bind_ok by reflexivity.
  cbn [charging_current collect_time]. subst w2. cbn [charging_current granted].
  by rewrite Hcc.
Qed.

Lemma tick_battery_raises cfg fed t w e w' :
  (1 <= sub_count fed)%nat ->
  step cfg 0 (helicsInputGetDouble fed (grants w) 0)
    (granted (t + inject_Z (update_interval cfg)) w) = (Raise e, w') ->
  tick interp_call cfg fed t w = (Raise e, w').
Proof.
  intros Hsub Hstep. unfold tick. cbv zeta.
  rewrite (bind_ok _ _ w (grants w) w) by reflexivity.
  set (w2 := granted (t + inject_Z (update_interval cfg)) w) in *.
  rewrite (bind_ok _ _ w tt w2) by reflexivity.
  unfold for_range. destruct (sub_count fed) as [|n]; [lia |]. cbn [seq for_each].
  apply bind_raise. apply bind_raise. unfold battery. cbv zeta.
  apply bind_raise. exact Hstep.
Qed.

Lemma main_ending cfg fed fuel g :
  main cfg fed fuel (startup g) = end_of cfg fed g (ending_of cfg fed fuel).
Proof.
  unfold main, main_with.
  rewrite (bind_ok _ _ (startup g) tt (set_random (rng_seed 1) (startup g)))
    by reflexivity.
  rewrite (bind_ok _ _ _ tt (seeded fed g) (seeded_run fed g)).
  pose proof (seeded_quiet fed g) as (_ & _ & Hcc & _ & _ & Hgr & _ & _ & _).
  cbn in Hcc, Hgr.
  pose proof (initialize_ready fed g) as (_ & _ & Hkeys).
  fold (seeded fed g) in Hkeys.
  unfold ending_of. destruct (Z.leb_spec (total_interval cfg) 0) as [Htot | Htot].
  - assert (Hend : Qle_bool (inject_Z (total_interval cfg)) 0 = true).
    { apply Qle_bool_iff. change 0 with (inject_Z 0). by rewrite <- Zle_Qle. }
    erewrite bind_ok; [reflexivity |].
    destruct fuel; cbn [loop]; by rewrite Hend.
  - assert (Hgo : Qle_bool (inject_Z (total_interval cfg)) 0 = false).
    { apply not_true_is_false. intros H. apply Qle_bool_iff in H.
      change 0 with (inject_Z 0) in H. rewrite <- Zle_Qle in H. lia. }
    destruct fuel as [|fuel]; cbn [loop]; rewrite Hgo; [reflexivity |].
    destruct (sub_count fed) as [|n] eqn:Hsub.
    + cbn [end_of]. apply bind_raise. apply bind_raise.
      rewrite (tick_no_battery cfg fed 0 (seeded fed g) Hsub Hcc).
      by rewrite Hgr.
    + assert (Hstep : forall e w',
                 step cfg 0 (helicsInputGetDouble fed 0 0) (first_grant cfg fed g)
                 = (Raise e, w') ->
                 bind (bind (tick interp_call cfg fed 0)
                            (fun t' => loop interp_call cfg fed fuel t'))
                      (fun _ => destroy_federate) (seeded fed g)
                 = (Raise e, w')).
      { intros e w' H. apply bind_raise. apply bind_raise.
        apply tick_battery_raises; [lia |]. by rewrite Hgr. }
      destruct (Qeq_bool (helicsInputGetDouble fed 0 0) 0) eqn:Hv.
      * cbn [end_of]. apply Hstep. by apply step_departed.
      * destruct (pub_count fed) as [|m] eqn:Hpub; cbn [end_of]; apply Hstep.
        -- apply step_unknown; [exact Hv |].
           change (current_soc (seeded fed g) !! 0%nat = None).
           apply initialize_absent. lia.
        -- destruct (Hkeys 0%nat) as [q Hq]; [lia |].
           by apply (step_live cfg 0 _ _ q).
Qed.

Lemma seeded_grid fed g : grid_store (current_soc (seeded fed g)).
Proof. apply initialize_grid. Qed.

(** The fields of the world in which a run ends. *)
Lemma ending_fields cfg fed g e :
  let w := snd (end_of cfg fed g e) in
  published w = []
  /\ current w = []
  /\ grid_store (current_soc w)
  /\ finalized w = (match e with Finalised => true | _ => false end)
  /\ grants w = (match e with Finalised | Exhausted => 0 | _ => 1 end)%nat.
Proof.
  pose proof (seeded_quiet fed g) as (_ & _ & _ & _ & Hcur & Hgr & _ & Hpub & Hfin).
  pose proof (seeded_grid fed g) as Hgrid.
  cbn in Hcur, Hgr, Hpub, Hfin.
  set (w1 := first_grant cfg fed g).
  assert (H1 : published w1 = [] /\ current w1 = []
               /\ grid_store (current_soc w1)
               /\ finalized w1 = false /\ grants w1 = 1%nat).
  { subst w1. unfold first_grant. cbn. rewrite Hgr. by repeat split. }
  destruct H1 as (Hp1 & Hc1 & Hg1 & Hf1 & Hn1).
  destruct e; cbn [end_of snd]; fold w1.
  - cbn. by repeat split.
  - by repeat split.
  - cbn. by repeat split.
  - destruct (reset_quiet 0 w1) as (_ & _ & _ & _ & Hc & Hn & _ & Hp & Hf).
    pose proof (reset_grid_store 0 w1 Hg1) as Hg.
    rewrite Hp, Hc, Hf, Hn. by repeat split.
  - by repeat split.
  - by repeat split.
Qed.

(** X4.  The run ends normally, and the federate is finalised, exactly when
    the horizon is not positive. *)
Theorem main_finalises_iff cfg fed fuel g :
  (fst (main cfg fed fuel (startup g)) = Ok tt <-> (total_interval cfg <= 0)%Z)
  /\ (finalized (snd (main cfg fed fuel (startup g))) = true
      <-> (total_interval cfg <= 0)%Z).
Proof.
  rewrite main_ending.
  pose proof (ending_fields cfg fed g (ending_of cfg fed fuel)) as (_ & _ & _ & Hfin & _).
  cbv zeta in Hfin. rewrite Hfin. unfold ending_of.
  destruct (Z.leb_spec (total_interval cfg) 0) as [Htot | Htot].
  - cbn. split; split; auto.
  - assert (Hno : ~ (total_interval cfg <= 0)%Z) by lia.
    destruct fuel; [| destruct (sub_count fed);
      [| destruct (Qeq_bool _ 0); [| destruct (pub_count fed)]]];
      cbn; split; split; intros H; try discriminate H; contradiction.
Qed.

(** X5.  No run publishes a current or collects one, and no run asks for
    time more than once. *)
Theorem main_never_publishes cfg fed fuel g :
  published (snd (main cfg fed fuel (startup g))) = []
  /\ current (snd (main cfg fed fuel (startup g))) = []
  /\ (grants (snd (main cfg fed fuel (startup g))) <= 1)%nat.
Proof.
  rewrite main_ending.
  pose proof (ending_fields cfg fed g (ending_of cfg fed fuel)) as (Hp & Hc & _ & _ & Hg).
  cbv zeta in Hp, Hc, Hg. rewrite Hp, Hc, Hg.
  repeat split. destruct (ending_of cfg fed fuel); lia.
Qed.

(** X6.  Whatever the voltages are, every SOC that a run leaves in the
    store is a value of the grid of the draws: no energy is ever added. *)
Theorem main_store_on_grid cfg fed fuel g i s :
  current_soc (snd (main cfg fed fuel (startup g))) !! i = Some s -> on_grid s.
Proof.
  rewrite main_ending.
  pose proof (ending_fields cfg fed g (ending_of cfg fed fuel)) as (_ & _ & Hgrid & _).
  apply Hgrid.
Qed.

(** X7.  Which exception ends a run over a positive horizon: [NameError]
    without batteries; [KeyError] when battery 0 is under voltage and there
    is no publication, hence no SOC for it; [ValueError] otherwise. *)
Theorem main_failure_modes cfg fed fuel g :
  (0 < total_interval cfg)%Z ->
  exists e,
    fst (main cfg fed (S fuel) (startup g)) = Raise e
    /\ (e = NameError <-> sub_count fed = 0%nat)
    /\ (e = KeyError <->
        (1 <= sub_count fed)%nat /\ pub_count fed = 0%nat
        /\ ~ helicsInputGetDouble fed 0 0 == 0)
    /\ (e = ValueError <->
        (1 <= sub_count fed)%nat
        /\ ((1 <= pub_count fed)%nat \/ helicsInputGetDouble fed 0 0 == 0)).
Proof.
  intros Htot. rewrite main_ending. unfold ending_of.
  destruct (Z.leb_spec (total_interval cfg) 0) as [H | _]; [lia |].
  destruct (sub_count fed) as [|n].
  - exists NameError. cbn. split; [reflexivity |]. split; [done |].
    split; split; try discriminate; intros [? _]; lia.
  - destruct (Qeq_bool (helicsInputGetDouble fed 0 0) 0) eqn:Hv.
    + apply Qeq_bool_iff in Hv. exists ValueError. cbn.
      split; [reflexivity |]. split; [split; discriminate |].
      split; split; try discriminate.
      * intros (_ & _ & Hn). contradiction.
      * intros _. split; [lia | by right].
      * done.
    + apply Qeq_bool_neq in Hv. destruct (pub_count fed) as [|m].
      * exists KeyError. cbn. split; [reflexivity |].
        split; [split; discriminate |]. split; split; try discriminate.
        -- intros _. split; [lia | done].
        -- done.
        -- intros (_ & [Hp | Hz]); [lia | contradiction].
      * exists ValueError. cbn. split; [reflexivity |].
        split; [split; discriminate |]. split; split; try discriminate.
        -- intros (_ & Hp & _). discriminate.
        -- intros _. split; [lia | left; lia].
        -- done.
Qed.

(** X8.  The collected lists get out of step: without batteries the one
    granted time is collected before line 157 fails; in every other run
    nothing is. *)
Theorem main_time_sim cfg fed fuel g :
  time_sim (snd (main cfg fed fuel (startup g)))
  = if Z.leb (total_interval cfg) 0 then []
    else match fuel, sub_count fed with
         | S _, O =>
             [helicsFederateRequestTime fed 0 (0 + inject_Z (update_interval cfg))]
         | _, _ => []
         end.
Proof.
  rewrite main_ending. unfold ending_of.
  pose proof (seeded_quiet fed g) as (_ & _ & _ & Hts & _).
  cbn in Hts.
  destruct (Z.leb (total_interval cfg) 0); [exact Hts |].
  destruct fuel; [exact Hts |].
  destruct (sub_count fed).
  - cbn. by rewrite Hts.
  - destruct (Qeq_bool _ 0); [| destruct (pub_count fed)]; cbn [end_of snd];
      unfold first_grant; try exact Hts.
    destruct (reset_quiet 0 (granted (0 + inject_Z (update_interval cfg)) (seeded fed g)))
      as (_ & _ & _ & H & _). by rewrite H.
Qed.
End Run.


(** ** One update in any world (lines 134-147) *)

Section StepExtras.
Context {RS : RandomState}.

#[local] Instance off_the_record_preorder : PreOrder off_the_record.
Proof.
  split.
  - intros w. split; [| split]; [by repeat split | reflexivity | by intros j].
  - intros w1 w2 w3 ((? & ? & ? & ? & ?) & ? & Hg1) ((? & ? & ? & ? & ?) & ? & Hg2).
    split; [| split].
    + repeat split; congruence.
    + congruence.
    + intros j Hj. apply Hg2, Hg1, Hj.
Qed.

Lemma put_soc_off_the_record j v : keeps off_the_record (put_soc j v).
Proof.
  apply keeps_modify. intros w. split; [| split]; [by repeat split | reflexivity |].
  intros k Hk. cbn. destruct (decide (k = j)) as [-> | Hne].
  - rewrite lookup_insert_eq. eauto.
  - by rewrite lookup_insert_ne.
Qed.

Lemma step_with_off_the_record lookup cfg j v :
  keeps off_the_record (step_with lookup cfg j v).
Proof.
  assert (Hid : forall f : world -> world,
             (forall w, between_grants w (f w) /\ published (f w) = published w
                        /\ current_soc (f w) = current_soc w) ->
             forall w, off_the_record w (f w)).
  { intros f Hf w. destruct (Hf w) as (? & ? & Hs). split; [| split]; try done.
    intros k Hk. by rewrite Hs. }
  unfold step_with, reconnect, charge.
  repeat lazymatch goal with
    | |- keeps _ (bind _ _) => apply keeps_bind; [apply _ | | intros ?]
    | |- keeps _ (if ?b then _ else _) => destruct b
    | |- keeps _ (ret _) => apply keeps_ret; apply _
    | |- keeps _ (gets _) => apply keeps_gets; apply _
    | |- keeps _ (get_soc _) => apply keeps_get_soc; apply _
    | |- keeps _ (lift _) => apply keeps_lift; apply _
    | |- keeps _ (lift_finite _) => apply keeps_lift_finite; apply _
    | |- keeps _ (put_soc _ _) => apply put_soc_off_the_record
    | |- keeps _ draw_soc =>
        apply keeps_draw_soc; [apply _ | intros g; apply Hid; by intros ?]
    | |- keeps _ (modify _) => apply keeps_modify; apply Hid; by intros ?
    end.
Qed.

(** X10.  An update, in any world and with any outcome, leaves the collected
    lists, the count and trace of the time requests, the publications and
    the flag of the finalisation as they were, and removes no battery from
    the store. *)
Theorem step_leaves_traces cfg j v w :
  let w' := snd (step cfg j v w) in
  time_sim w' = time_sim w
  /\ current w' = current w
  /\ grants w' = grants w
  /\ requested w' = requested w
  /\ published w' = published w
  /\ finalized w' = finalized w
  /\ forall k, is_Some (current_soc w !! k) -> is_Some (current_soc w' !! k).
Proof.
  destruct (step_with_off_the_record interp_call cfg j v w)
    as ((? & ? & ? & ? & ?) & ? & Hg).
  cbv zeta. unfold step. by repeat split.
Qed.

(** X9.  In any world an update that raises raises [ValueError] or
    [KeyError]. *)
Theorem step_raises_value_or_key_error cfg j v w e :
  fst (step cfg j v w) = Raise e -> e = ValueError \/ e = KeyError.
Proof.
  apply (step_with_throws (fun e => e = ValueError \/ e = KeyError)
           interp_call cfg j v); [by left | by right |].
  intros xs ys soc e' He. left. by apply interp_raises in He.
Qed.

(** X11.  A battery without an entry in the store.  Under zero voltage line
    136 creates the entry before line 139 fails; under any other voltage
    line 140 fails with [KeyError] and the world is as it was. *)
Theorem step_missing_battery cfg j v w :
  current_soc w !! j = None ->
  (v == 0 ->
     fst (step cfg j v w) = Raise ValueError
     /\ is_Some (current_soc (snd (step cfg j v w)) !! j))
  /\ (~ v == 0 -> step cfg j v w = (Raise KeyError, w)).
Proof.
  intros Hj. split.
  - intros Hv. apply Qeq_bool_iff in Hv. rewrite step_departed by exact Hv.
    split; [reflexivity |]. cbn [snd]. rewrite reset_soc. eauto.
  - intros Hv. apply step_unknown; [| exact Hj].
    apply not_true_is_false. intros H. by apply Qeq_bool_iff in H.
Qed.
End StepExtras.


(** ** The time request of a turn (lines 119-125) *)

Section TickExtras.
Context {RS : RandomState}.

#[local] Instance same_requests_preorder : PreOrder same_requests.
Proof.
  split.
  - intros w. by split.
  - intros w1 w2 w3 [? ?] [? ?]. split; congruence.
Qed.

Lemma battery_same_requests lookup cfg fed k j :
  keeps same_requests (battery lookup cfg fed k j).
Proof.
  intros w. destruct (battery_between_grants lookup cfg fed k j w)
    as (_ & _ & ? & ? & _). by split.
Qed.

(** X12.  A turn of the loop asks for time exactly once, for the time at
    which it was entered plus [update_interval], whatever the batteries do
    afterwards. *)
Theorem tick_requests_once cfg fed t w :
  grants (snd (tick interp_call cfg fed t w)) = S (grants w)
  /\ requested (snd (tick interp_call cfg fed t w))
     = (t + inject_Z (update_interval cfg)) :: requested w.
Proof.
  unfold tick. cbv zeta.
  rewrite (bind_ok _ _ w (grants w) w) by reflexivity.
  set (w1 := granted (t + inject_Z (update_interval cfg)) w).
  rewrite (bind_ok _ _ w tt w1) by reflexivity.
  match goal with
  | |- context [snd (?c w1)] =>
      assert (Hk : keeps same_requests c)
  end.
  { apply keeps_bind; [apply _ | |].
    - apply keeps_for_each; [apply _ |]. intros j. apply battery_same_requests.
    - intros _. apply keeps_bind; [apply _ | |].
      + apply keeps_modify. by intros ?.
      + intros _. apply keeps_bind; [apply _ | |].
        * apply keeps_gets. apply _.
        * intros [i |]; [| apply keeps_raise; apply _].
          apply keeps_bind; [apply _ | |].
          -- apply keeps_modify. by intros ?.
          -- intros _. apply keeps_ret. apply _. }
  destruct (Hk w1) as [Hg Hr]. rewrite Hg, Hr. by split.
Qed.
End TickExtras.

(** ** The properties at work *)

Lemma initialize_nth_draw_witness :
  (1 < pub_count (steady 2))%nat
  /\ current_soc (snd (initialize (steady 2) (startup (RS := lcg) 7%Z))) !! 1%nat
     = Some (np.Num
               (inject_Z (fst (rng_randint 0 80 (draws 1 (random (startup 7%Z)))))
                / 100)).
Proof.
  assert (H : (1 < pub_count (steady 2))%nat) by (cbn; lia).
  exact (conj H (initialize_nth_draw (steady 2) (startup 7%Z) 1%nat H)).
Defined.

Lemma main_store_on_grid_witness :
  current_soc (snd (main tutorial (steady 2) 3 (startup (RS := lcg) 7%Z))) !! 0%nat
  = Some (np.Num (inject_Z 38 / 100))
  /\ on_grid (np.Num (inject_Z 38 / 100)).
Proof.
  assert (H : current_soc (snd (main tutorial (steady 2) 3 (startup (RS := lcg) 7%Z)))
              !! 0%nat = Some (np.Num (inject_Z 38 / 100))) by reflexivity.
  exact (conj H (main_store_on_grid tutorial (steady 2) 3 7%Z 0%nat _ H)).
Defined.

Lemma main_failure_modes_witness :
  (0 < total_interval tutorial)%Z
  /\ exists e,
       fst (main tutorial (steady 1) 1 (startup (RS := lcg) 7%Z)) = Raise e
       /\ (e = NameError <-> sub_count (steady 1) = 0%nat)
       /\ (e = KeyError <->
           (1 <= sub_count (steady 1))%nat /\ pub_count (steady 1) = 0%nat
           /\ ~ helicsInputGetDouble (steady 1) 0 0 == 0)
       /\ (e = ValueError <->
           (1 <= sub_count (steady 1))%nat
           /\ ((1 <= pub_count (steady 1))%nat
               \/ helicsInputGetDouble (steady 1) 0 0 == 0)).
Proof.
  assert (H : (0 < total_interval tutorial)%Z) by reflexivity.
  exact (conj H (main_failure_modes tutorial (steady 1) 0 7%Z H)).
Defined.

Lemma step_raises_value_or_key_error_witness :
  fst (step tutorial 0 400 half_charged) = Raise ValueError
  /\ (ValueError = ValueError \/ ValueError = KeyError).
Proof.
  assert (H : fst (step tutorial 0 400 half_charged) = Raise ValueError)
    by reflexivity.
  exact (conj H (step_raises_value_or_key_error tutorial 0 400 half_charged _ H)).
Defined.

Lemma step_leaves_traces_witness :
  is_Some (current_soc two_batteries !! 1%nat)
  /\ is_Some (current_soc (snd (step tutorial 0 0 two_batteries)) !! 1%nat).
Proof.
  assert (H : is_Some (current_soc two_batteries !! 1%nat)) by (cbn; eauto).
  destruct (step_leaves_traces tutorial 0 0 two_batteries)
    as (_ & _ & _ & _ & _ & _ & Hk).
  exact (conj H (Hk 1%nat H)).
Defined.

Lemma step_missing_battery_witness :
  current_soc half_charged !! 5%nat = None
  /\ (0 == 0 ->
      fst (step tutorial 5 0 half_charged) = Raise ValueError
      /\ is_Some (current_soc (snd (step tutorial 5 0 half_charged)) !! 5%nat))
  /\ (~ 400 == 0 ->
      step tutorial 5 400 half_charged = (Raise KeyError, half_charged)).
Proof.
  assert (H : current_soc half_charged !! 5%nat = None) by reflexivity.
  exact (conj H (conj (proj1 (step_missing_battery tutorial 5 0 half_charged H))
                      (proj2 (step_missing_battery tutorial 5 400 half_charged H)))).
Defined.
